(** * e3nn_jax/_graph_util.py: index_add, radius_graph and the relabeling helper

    A shallow embedding of [src/e3nn_jax/_graph_util.py].  Arrays are lists,
    integer arrays are lists of [Z] (negative entries are legal Python
    indices), and the array runtime's primitives the file calls
    ([jnp.unique], [jnp.where], [.at[..].add], indexing by an integer or a
    boolean array) are written out as list functions next to the function
    that uses them. *)

From Stdlib Require Import ZArith Lia Floats.
From stdpp Require Import base decidable numbers option list sorting strings.

Local Open Scope Z_scope.

(** ** The scalar type of feature and position arrays

    The source is polymorphic in the array dtype.  The operations it uses
    are collected in one interface; the definitions below run at every
    instance, and a property that needs a law of arithmetic names it. *)

Class Scalar (F : Type) := {
  fzero : F;
  fadd : F → F → F;
  fsub : F → F → F;
  fmul : F → F → F;
  fsqrt : F → F;
  fltb : F → F → bool
}.

(** Integer grid: exact whenever the squared distance is a perfect square. *)
#[export] Instance Z_scalar : Scalar Z := {|
  fzero := 0;
  fadd := Z.add;
  fsub := Z.sub;
  fmul := Z.mul;
  fsqrt := Z.sqrt;
  fltb := Z.ltb
|}.

(** Binary64 floating point, as the runtime computes with x64 enabled. *)
#[export] Instance float_scalar : Scalar float := {|
  fzero := PrimFloat.zero;
  fadd := PrimFloat.add;
  fsub := PrimFloat.sub;
  fmul := PrimFloat.mul;
  fsqrt := PrimFloat.sqrt;
  fltb := PrimFloat.ltb
|}.

(** ** Runtime primitives on 1-D integer and boolean arrays *)

(** [jnp.unique(x, size=n)]: the distinct values in ascending order, cut to
    [n] entries or padded to [n] with the smallest distinct value (the
    documented default of [fill_value]). *)
Definition unique (x : list Z) (size : nat) : list Z :=
  let u := merge_sort Z.le (remove_dups x) in
  resize size (hd 0 u) u.

(** [jnp.nonzero] on a 1-D boolean array: the positions holding [True], in
    ascending order; [k] is the position of the head. *)
Fixpoint nonzero_from (k : Z) (c : list bool) : list Z :=
  match c with
  | [] => []
  | b :: c => if b then k :: nonzero_from (k + 1) c else nonzero_from (k + 1) c
  end.

(** [jnp.where(c, size=n, fill_value=fill)[0]] for 1-D [c].  For an array
    without elements the runtime returns [n] zeros, whatever [fill] is. *)
Definition where1 (c : list bool) (size : nat) (fill : Z) : list Z :=
  if decide (c = []) then replicate size 0
  else resize size fill (nonzero_from 0 c).

(** Python index normalisation: a negative index counts from the end. *)
Definition wrap_index (n : nat) (i : Z) : Z :=
  if i <? 0 then i + Z.of_nat n else i.

(** Scatter-side bounds handling: an index that is out of bounds after
    normalisation addresses no slot (its update is skipped). *)
Definition slot_of (n : nat) (i : Z) : option nat :=
  let j := wrap_index n i in
  if (0 <=? j) && (j <? Z.of_nat n) then Some (Z.to_nat j) else None.

(** Gather-side bounds handling: an index that is out of bounds after
    normalisation is clamped to the nearest valid position. *)
Definition clip_index (n : nat) (i : Z) : nat :=
  Z.to_nat (Z.max 0 (Z.min (wrap_index n i) (Z.of_nat n - 1))).

(** [a[i]] for an integer [i] and a non-empty [a].  The runtime refuses a
    read from an empty axis with a [TypeError]; [d] stands in for it there,
    so what is proved of a read from an empty array is proved of the model
    alone. *)
Definition getitem {A} (d : A) (a : list A) (i : Z) : A :=
  default d (a !! clip_index (length a) i).

(** [a[idx]] for an integer array [idx]. *)
Definition gather {A} (d : A) (a : list A) (idx : list Z) : list A :=
  getitem d a <$> idx.

(** [a[m]] for a boolean array [m] of the same length. *)
Fixpoint compress {A} (a : list A) (m : list bool) : list A :=
  match a, m with
  | x :: a, b :: m => if b then x :: compress a m else compress a m
  | _, _ => []
  end.

(** ** _distinct_but_small (lines 9-20) *)

Definition _distinct_but_small (x : list Z) : list Z :=
  let unique := unique x (length x) in
  (λ i, hd 0 (where1 (Z.eqb i <$> unique) 1 0)) <$> x.

(** ** Feature arrays

    An array of shape [(n, d1, ..., dk)] is its [n] rows, each row the
    [d1 * ... * dk] scalars of the trailing axes in row-major order, next to
    the trailing shape itself (which is still there when [n = 0]). *)

Record ndarray (F : Type) := NdArray {
  trailing : list nat;
  rows : list (list F)
}.
Arguments NdArray {F} _ _.
Arguments trailing {F} _.
Arguments rows {F} _.

(** Modelled from the spec: the labeled feature array [e3nn.IrrepsArray],
    whose class is not part of the sources at hand: numeric data next to a
    tag, a list of (group-label, multiplicity, sub-dimension) triples.  The
    constructor [IrrepsArray(irreps, array)] stores its two arguments. *)
Definition Irreps : Type := list (string * nat * nat).

(** Modelled from the spec: [e3nn.IrrepsArray] as the pair of its tag
    [irreps] and its numeric data [array]. *)
Record IrrepsArray (F : Type) := MkIrrepsArray {
  irreps : Irreps;
  array : ndarray F
}.
Arguments MkIrrepsArray {F} _ _.
Arguments irreps {F} _.
Arguments array {F} _.

(** [Union[jnp.ndarray, e3nn.IrrepsArray]] *)
Inductive features (F : Type) :=
  | Plain (a : ndarray F)
  | Labeled (a : IrrepsArray F).
Arguments Plain {F} _.
Arguments Labeled {F} _.

(** What a call can raise. *)
Inductive error :=
  | AssertionError
  | ValueError (msg : string).

Section IndexAdd.
Context {F : Type} `{Scalar F}.

(** [a.shape] *)
Definition shape (a : ndarray F) : list nat := length (rows a) :: trailing a.

Definition row_size (tr : list nat) : nat := foldr Nat.mul 1%nat tr.

Definition zero_row (tr : list nat) : list F := replicate (row_size tr) fzero.

(** [jnp.zeros((n,) + tr)] *)
Definition zeros (n : nat) (tr : list nat) : ndarray F :=
  NdArray tr (replicate n (zero_row tr)).

(** Elementwise sum of two rows of one shape. *)
Definition row_add (a b : list F) : list F := zip_with fadd a b.

(** One update of [.at[indices].add(x)]: row [r] is added into the slot
    index [i] addresses, if any. *)
Definition add_at (acc : list (list F)) (ir : Z * list F) : list (list F) :=
  match slot_of (length acc) ir.1 with
  | Some j => alter (λ o, row_add o ir.2) j acc
  | None => acc
  end.

(** [out.at[indices].add(x)]: the updates are applied in row order. *)
Definition at_add (out : ndarray F) (indices : list Z) (x : ndarray F) : ndarray F :=
  NdArray (trailing out) (foldl add_at (rows out) (zip indices (rows x))).

(** [out[indices]] along the leading axis. *)
Definition take_rows (out : ndarray F) (indices : list Z) : ndarray F :=
  NdArray (trailing out) (gather (zero_row (trailing out)) (rows out) indices).

(** [input.shape[0]]; the shape of an [IrrepsArray] is that of its data. *)
Definition data (input : features F) : ndarray F :=
  match input with
  | Plain a => a
  | Labeled ia => array ia
  end.

(** index_add (lines 23-77) *)
Definition index_add (indices : list Z) (input : features F)
    (out_dim : option nat) (map_back : bool) : error + features F :=
  (* line 54 *)
  if negb (length indices =? length (rows (data input)))%nat then inl AssertionError else
  match out_dim, map_back with
  (* lines 56-58 *)
  | None, false => inl (ValueError "out_dim must be specified if map_back is False")
  (* lines 59-60 *)
  | Some _, true => inl (ValueError "out_dim must not be specified if map_back is True")
  | _, _ =>
    (* lines 62-64: only [None, true] reaches the first branch *)
    let '(out_dim, indices) :=
      match out_dim with
      | None => (length indices, _distinct_but_small indices)
      | Some d => (d, indices)
      end in
    (* lines 66-68 *)
    let x := data input in
    (* line 70 *)
    let output := at_add (zeros out_dim (trailing x)) indices x in
    (* lines 72-73 *)
    let output := if map_back then take_rows output indices else output in
    (* lines 75-77 *)
    match input with
    | Labeled ia => inr (Labeled (MkIrrepsArray (irreps ia) output))
    | Plain _ => inr (Plain output)
    end
  end.
End IndexAdd.

(** ** Runtime primitives on 2-D boolean arrays *)

(** [jnp.nonzero] on a 2-D boolean array: the (row, column) positions
    holding [True] in row-major order. *)
Definition nonzero2 (mask : list (list bool)) : list (Z * Z) :=
  mjoin (imap (λ i row, pair (Z.of_nat i) <$> nonzero_from 0 row) mask).

(** [jnp.where(mask, size=size, fill_value=fill)] for 2-D [mask]: the row
    indices and the column indices, each cut or padded to [size] entries
    when a size is given.  For a mask without elements the runtime returns
    [size] zeros for both, whatever [fill] is. *)
Definition where2 (mask : list (list bool)) (size : option nat) (fill : Z)
    : list Z * list Z :=
  let ps := nonzero2 mask in
  match size with
  | None => (ps.*1, ps.*2)
  | Some n =>
    if decide (mjoin mask = []) then (replicate n 0, replicate n 0)
    else (resize n fill ps.*1, resize n fill ps.*2)
  end.

Section RadiusGraph.
Context {F : Type} `{Scalar F}.

(** [x - y] on coordinate vectors *)
Definition vsub (x y : list F) : list F := zip_with fsub x y.

(** [jnp.linalg.norm(v)]: square root of the sum of squares. *)
Definition norm (v : list F) : F :=
  fsqrt (foldl fadd fzero ((λ a, fmul a a) <$> v)).

(** Line 101: [r[i][j] = norm(pos[i] - pos[j])]. *)
Definition pairwise_norm (pos : list (list F)) : list (list F) :=
  (λ x, (λ y, norm (vsub x y)) <$> pos) <$> pos.

(** Lines 102-105; [r > 0] is [0 < r]. *)
Definition adjacency (r : list (list F)) (r_max : F) (loop : bool)
    : list (list bool) :=
  if loop then (λ ri : list F, (λ d, fltb d r_max) <$> ri) <$> r
  else (λ ri : list F, (λ d, fltb d r_max && fltb fzero d) <$> ri) <$> r.

(** radius_graph (lines 80-111) *)
Definition radius_graph (pos : list (list F)) (r_max : F)
    (batch : option (list Z)) (size : option nat) (loop : bool)
    : list Z * list Z :=
  let r := pairwise_norm pos in
  let mask := adjacency r r_max loop in
  (* line 107 *)
  let '(src, dst) := where2 mask size (-1) in
  (* lines 109-111 *)
  match batch with
  | None => (src, dst)
  | Some batch =>
    let keep := zip_with Z.eqb (gather 0 batch src) (gather 0 batch dst) in
    (compress src keep, compress dst keep)
  end.
End RadiusGraph.

(** ** Vocabulary of the properties *)

(** The rank of key [v] among the distinct keys of [x] in ascending order:
    the number of distinct keys of [x] below [v]. *)
Definition rank (x : list Z) (v : Z) : Z :=
  Z.of_nat (length (remove_dups (filter (λ w, w < v) x))).

(** The number of distinct values of [x]. *)
Definition distinct_count (x : list Z) : nat := length (remove_dups x).

(** The rows of [xs] whose index is [b], in row order. *)
Definition bucket_rows {F} (indices : list Z) (xs : list (list F)) (b : Z)
    : list (list F) :=
  (filter (λ ir, ir.1 = b) (zip indices xs)).*2.

(** The sum of a list of rows of trailing shape [tr]. *)
Definition row_sum {F} `{Scalar F} (tr : list nat) (rs : list (list F)) : list F :=
  foldl row_add (zero_row tr) rs.

(** The number of scalars in one row of trailing shape [dims]. *)
Fixpoint dims_product (dims : list nat) : nat :=
  match dims with
  | [] => 1
  | d :: dims => d * dims_product dims
  end.

(** An array is what its shape says: every row holds as many scalars as
    the trailing shape has positions. *)
Definition rectangular {F} (x : ndarray F) : Prop :=
  Forall (λ r, length r = dims_product (trailing x)) (rows x).

(** The entries at position [c] of the rows [rs], in row order. *)
Definition column {F} (c : nat) (rs : list (list F)) : list F :=
  omap (λ r, r !! c) rs.

(** The sum of a list of scalars, accumulated from zero in list order. *)
Definition sum_of {F} `{Scalar F} (l : list F) : F := foldl fadd fzero l.

(** The Euclidean distance of two points: the square root of the sum, over
    the coordinates, of the squared differences. *)
Definition euclidean {F} `{Scalar F} (p q : list F) : F :=
  fsqrt (foldl (λ acc ab, fadd acc (fmul (fsub ab.1 ab.2) (fsub ab.1 ab.2)))
           fzero (zip p q)).

(** Two facts of the comparison: no scalar is below itself, and zero is
    not below the distance of a point to itself.  Both hold of the integers
    and of binary64 floating point, infinities and NaN included (where the
    distance of a point to itself is NaN). *)
Class StrictScalar (F : Type) `{Scalar F} : Prop := {
  fltb_irrefl : ∀ a : F, fltb a a = false;
  self_distance_not_above_zero : ∀ p : list F, fltb fzero (euclidean p p) = false
}.

(** A float that is neither an infinity nor NaN. *)
Definition float_is_finite (x : float) : bool :=
  match Prim2SF x with
  | S754_zero _ | S754_finite _ _ _ => true
  | _ => false
  end.

(** Points [p] and [q] are within the radius: their distance is below
    [r_max] and, without self-loops, above zero. *)
Definition within {F} `{Scalar F} (r_max : F) (loop : bool) (p q : list F) : Prop :=
  fltb (norm (vsub p q)) r_max = true ∧
  (loop = false → fltb fzero (norm (vsub p q)) = true).

(** The pair [(s, d)] occurs in an edge list, at one position of both arrays. *)
Definition edge_of (e : list Z * list Z) (s d : Z) : Prop :=
  ∃ k : nat, e.1 !! k = Some s ∧ e.2 !! k = Some d.

(** Entry [(i, j)] of a boolean matrix is set. *)
Definition is_set (mask : list (list bool)) (i j : nat) : Prop :=
  ∃ row, mask !! i = Some row ∧ row !! j = Some true.

(** The laws of addition under which the order of accumulation does not
    matter.  Real and integer addition have them; floating-point addition
    is commutative but not associative. *)
Class SumScalar (F : Type) `{Scalar F} : Prop := {
  fadd_comm : ∀ a b : F, fadd a b = fadd b a;
  fadd_assoc : ∀ a b c : F, fadd a (fadd b c) = fadd (fadd a b) c;
  fadd_zeros : fadd fzero fzero = (fzero : F)
}.

(** The square of a difference does not depend on the order of its terms,
    in exact and in floating-point arithmetic alike. *)
Class SymmetricScalar (F : Type) `{Scalar F} : Prop := {
  fsub_square_sym : ∀ a b : F, fmul (fsub a b) (fsub a b) = fmul (fsub b a) (fsub b a)
}.

(** Row-major order on index pairs. *)
Definition pair_lt (a b : Z * Z) : Prop :=
  a.1 < b.1 ∨ (a.1 = b.1 ∧ a.2 < b.2).

(** The rows a scatter into [n] slots adds into slot [b]: those whose index
    is [b] or, counting from the end, [b - n]. *)
Definition slot_rows {F} (n : nat) (indices : list Z) (xs : list (list F)) (b : nat)
    : list (list F) :=
  (filter (λ ir, ir.1 = Z.of_nat b ∨ ir.1 = Z.of_nat b - Z.of_nat n) (zip indices xs)).*2.

(** ** The code on concrete inputs *)

Example relabel_runs : _distinct_but_small [7; -3; 7; 100; -3] = [1; 0; 1; 2; 0].
Proof. reflexivity. Qed.

(** The docstring example of index_add. *)
Example index_add_docstring :
  index_add [0; 2; 2; 0] (Plain (NdArray [] [[1]; [2]; [3]; [-10]])) (Some 4%nat) false
  = inr (Plain (NdArray [] [[-9]; [0]; [5]; [0]])).
Proof. reflexivity. Qed.

Example index_add_docstring_float :
  index_add [0; 2; 2; 0]
    (Plain (NdArray [] [[1%float]; [2%float]; [3%float]; [(-10)%float]]))
    (Some 4%nat) false
  = inr (Plain (NdArray [] [[(-9)%float]; [0%float]; [5%float]; [0%float]])).
Proof. vm_compute. reflexivity. Qed.

Example index_add_map_back_runs :
  index_add [5; -2; 5; 9] (Plain (NdArray [] [[1]; [2]; [3]; [-10]])) None true
  = inr (Plain (NdArray [] [[4]; [2]; [4]; [-10]])).
Proof. reflexivity. Qed.

(** The collinear points of the spec, in binary64. *)
Example radius_graph_collinear :
  radius_graph
    [[0%float; 0%float; 0%float]; [1%float; 0%float; 0%float]; [2%float; 0%float; 0%float]]
    1.5%float None None false
  = ([0; 1; 1; 2], [1; 0; 2; 1]).
Proof. vm_compute. reflexivity. Qed.

Example radius_graph_collinear_loop :
  radius_graph
    [[0%float; 0%float; 0%float]; [1%float; 0%float; 0%float]; [2%float; 0%float; 0%float]]
    1.5%float None None true
  = ([0; 0; 1; 1; 1; 2; 2], [0; 1; 0; 1; 2; 1; 2]).
Proof. vm_compute. reflexivity. Qed.

Example radius_graph_sized_batch :
  radius_graph [[0; 0; 0]; [1; 0; 0]; [2; 0; 0]] 2 (Some [0; 0; 1]) (Some 6%nat) false
  = ([0; 1; -1; -1], [1; 0; -1; -1]).
Proof. reflexivity. Qed.

(** ** Facts about the runtime primitives *)

Lemma nonzero_from_first (u : list Z) (k : Z) (n : nat) (w : Z) :
  u !! n = Some w →
  (∀ m a, (m < n)%nat → u !! m = Some a → a ≠ w) →
  ∃ t, nonzero_from k (Z.eqb w <$> u) = (k + Z.of_nat n) :: t.
Proof.
  revert k n. induction u as [|a u IH]; intros k n Hn Hfirst; [done|].
  rewrite fmap_cons. cbn [nonzero_from]. destruct n as [|n].
  - injection Hn as ->. rewrite Z.eqb_refl. eexists. f_equal. lia.
  - assert (a ≠ w) as Ha by (apply (Hfirst 0%nat); [lia|done]).
    destruct (Z.eqb_spec w a) as [->|_]; [done|].
    destruct (IH (k + 1) n Hn) as [t Ht].
    + intros m b Hm Hb. apply (Hfirst (S m)); [lia|done].
    + exists t. rewrite Ht. f_equal. lia.
Qed.

Lemma sorted_lookup_lt (u : list Z) (m n : nat) (a w : Z) :
  StronglySorted Z.lt u → (m < n)%nat → u !! m = Some a → u !! n = Some w → a < w.
Proof.
  intros Hs. revert m n. induction Hs as [|c u Hs IH Hc]; intros m n Hmn Hm Hn; [done|].
  destruct n as [|n]; [lia|]. destruct m as [|m]; simpl in *.
  - injection Hm as ->. rewrite Forall_forall in Hc. apply Hc.
    by eapply list_elem_of_lookup_2.
  - apply (IH m n); [lia|done..].
Qed.

Lemma filter_lt_above (u : list Z) (w : Z) :
  Forall (Z.lt w) u → filter (λ a, a < w) u = [].
Proof.
  induction 1 as [|b u Hb _ IH]; [done|]. by rewrite filter_cons_False by lia.
Qed.

Lemma sorted_filter_lt_lookup (u : list Z) (n : nat) (w : Z) :
  StronglySorted Z.lt u → u !! n = Some w →
  length (filter (λ a, a < w) u) = n.
Proof.
  intros Hs. revert n. induction Hs as [|c u Hs IH Hc]; intros n Hn; [done|].
  destruct n as [|n]; simpl in Hn.
  - injection Hn as ->. rewrite filter_cons_False by lia.
    by rewrite filter_lt_above.
  - rewrite Forall_forall in Hc. rewrite filter_cons_True.
    + simpl. f_equal. by apply IH.
    + apply Hc. by eapply list_elem_of_lookup_2.
Qed.

(** The sorted distinct keys, before padding. *)
Lemma sorted_distinct_elem_of (x : list Z) (v : Z) :
  v ∈ merge_sort Z.le (remove_dups x) ↔ v ∈ x.
Proof. by rewrite merge_sort_Permutation, elem_of_remove_dups. Qed.

Lemma sorted_distinct_NoDup (x : list Z) : NoDup (merge_sort Z.le (remove_dups x)).
Proof. rewrite merge_sort_Permutation. apply NoDup_remove_dups. Qed.

Lemma sorted_distinct_length (x : list Z) :
  length (merge_sort Z.le (remove_dups x)) = distinct_count x.
Proof. unfold distinct_count. by rewrite merge_sort_Permutation. Qed.

Lemma distinct_count_le (x : list Z) : (distinct_count x ≤ length x)%nat.
Proof.
  unfold distinct_count. induction x as [|a x IH]; simpl; [done|].
  case_decide; simpl; lia.
Qed.

Lemma le_sorted_NoDup_lt (u : list Z) :
  StronglySorted Z.le u → NoDup u → StronglySorted Z.lt u.
Proof.
  induction 1 as [|a u Hs IH Ha]; intros Hnd; [constructor|].
  apply NoDup_cons in Hnd as [Hau Hnd]. constructor; [by apply IH|].
  rewrite Forall_forall in Ha |- *. intros b Hb.
  assert (a ≠ b) by (intros ->; done). specialize (Ha b Hb). lia.
Qed.

Lemma sorted_distinct_sorted (x : list Z) :
  StronglySorted Z.lt (merge_sort Z.le (remove_dups x)).
Proof.
  apply le_sorted_NoDup_lt; [|apply sorted_distinct_NoDup].
  apply StronglySorted_merge_sort; apply _.
Qed.

Lemma sorted_distinct_rank (x : list Z) (v : Z) :
  Z.of_nat (length (filter (λ a, a < v) (merge_sort Z.le (remove_dups x)))) = rank x v.
Proof.
  unfold rank. f_equal. apply Permutation_length, NoDup_Permutation.
  - apply NoDup_filter, sorted_distinct_NoDup.
  - apply NoDup_remove_dups.
  - intros a. rewrite elem_of_remove_dups, !list_elem_of_filter.
    by rewrite sorted_distinct_elem_of.
Qed.

Lemma unique_padded (x : list Z) :
  let u := merge_sort Z.le (remove_dups x) in
  unique x (length x) = u ++ replicate (length x - length u) (hd 0 u).
Proof.
  intros u. unfold unique. fold u. apply resize_ge.
  unfold u. rewrite sorted_distinct_length. apply distinct_count_le.
Qed.

(** The label of a key that occurs in [x] is its rank. *)
Lemma relabel_key (x : list Z) (v : Z) :
  v ∈ x → hd 0 (where1 (Z.eqb v <$> unique x (length x)) 1 0) = rank x v.
Proof.
  intros Hv. rewrite unique_padded.
  set (u := merge_sort Z.le (remove_dups x)).
  assert (v ∈ u) as Hu by by apply sorted_distinct_elem_of.
  apply list_elem_of_lookup in Hu as [n Hn].
  pose proof (sorted_distinct_sorted x) as Hs. fold u in Hs.
  destruct (nonzero_from_first (u ++ replicate (length x - length u) (hd 0 u)) 0 n v)
    as [t Ht].
  - by apply lookup_app_l_Some.
  - intros m a Hm Ha. rewrite lookup_app_l in Ha by (apply lookup_lt_Some in Hn; lia).
    pose proof (sorted_lookup_lt u m n a v Hs Hm Ha Hn). lia.
  - unfold where1. rewrite decide_False.
    2:{ intros Hnil%(f_equal length). rewrite length_fmap, length_app in Hnil.
        cbn [length] in Hnil. apply lookup_lt_Some in Hn. lia. }
    rewrite Ht. simpl.
    rewrite <- sorted_distinct_rank. fold u.
    rewrite (sorted_filter_lt_lookup u n v Hs Hn). lia.
Qed.

Lemma relabel_lookup (x : list Z) (i : nat) (xi : Z) :
  x !! i = Some xi → _distinct_but_small x !! i = Some (rank x xi).
Proof.
  intros Hi. unfold _distinct_but_small. rewrite list_lookup_fmap, Hi. simpl.
  f_equal. apply relabel_key. by eapply list_elem_of_lookup_2.
Qed.

Lemma relabel_length (x : list Z) : length (_distinct_but_small x) = length x.
Proof. unfold _distinct_but_small. by rewrite length_fmap. Qed.

Lemma rank_of_position (x : list Z) (n : nat) (v : Z) :
  merge_sort Z.le (remove_dups x) !! n = Some v → v ∈ x ∧ rank x v = Z.of_nat n.
Proof.
  intros Hn. split.
  - apply sorted_distinct_elem_of. by eapply list_elem_of_lookup_2.
  - rewrite <- sorted_distinct_rank.
    by rewrite (sorted_filter_lt_lookup _ n v (sorted_distinct_sorted x) Hn).
Qed.

Lemma position_of_key (x : list Z) (v : Z) :
  v ∈ x → merge_sort Z.le (remove_dups x) !! Z.to_nat (rank x v) = Some v.
Proof.
  intros Hv. apply sorted_distinct_elem_of, list_elem_of_lookup in Hv as [n Hn].
  destruct (rank_of_position x n v Hn) as [_ ->]. by rewrite Nat2Z.id.
Qed.

Lemma rank_inj (x : list Z) (a b : Z) :
  a ∈ x → b ∈ x → rank x a = rank x b → a = b.
Proof.
  intros Ha Hb Hab. apply position_of_key in Ha, Hb. rewrite Hab in Ha. congruence.
Qed.

Lemma rank_bounds (x : list Z) (v : Z) :
  v ∈ x → 0 ≤ rank x v < Z.of_nat (distinct_count x).
Proof.
  intros Hv. apply position_of_key, lookup_lt_Some in Hv.
  rewrite sorted_distinct_length in Hv. unfold rank in *. lia.
Qed.

Lemma rank_onto (x : list Z) (v : Z) :
  0 ≤ v < Z.of_nat (distinct_count x) → ∃ w, w ∈ x ∧ rank x w = v.
Proof.
  intros Hv. destruct (lookup_lt_is_Some_2 (merge_sort Z.le (remove_dups x)) (Z.to_nat v))
    as [w Hw]; [rewrite sorted_distinct_length; lia|].
  exists w. destruct (rank_of_position x _ w Hw) as [? ->]. split; [done|lia].
Qed.

Lemma relabel_values (x : list Z) (v : Z) :
  v ∈ _distinct_but_small x ↔ 0 ≤ v < Z.of_nat (distinct_count x).
Proof.
  split.
  - intros [i Hi]%list_elem_of_lookup.
    destruct (lookup_lt_is_Some_2 x i) as [xi Hxi].
    { apply lookup_lt_Some in Hi. by rewrite relabel_length in Hi. }
    rewrite (relabel_lookup x i xi Hxi) in Hi. injection Hi as <-.
    apply rank_bounds. by eapply list_elem_of_lookup_2.
  - intros (w & [i Hi]%list_elem_of_lookup & <-)%rank_onto.
    apply list_elem_of_lookup. exists i. by apply relabel_lookup.
Qed.

(** ** Properties of _distinct_but_small *)

(** C4. For every integer array [x] the relabeling has the length of [x],
    gives two positions the same label exactly when they hold the same key,
    takes exactly the values [0, ..., k-1] for [k] the number of distinct
    keys, and labels each key with its rank among the distinct keys in
    ascending order. *)
Theorem distinct_but_small_dense_rank (x : list Z) :
  let y := _distinct_but_small x in
  length y = length x ∧
  (∀ i j xi xj yi yj,
     x !! i = Some xi → x !! j = Some xj → y !! i = Some yi → y !! j = Some yj →
     (yi = yj ↔ xi = xj)) ∧
  (∀ v, v ∈ y ↔ 0 ≤ v < Z.of_nat (distinct_count x)) ∧
  (∀ i xi, x !! i = Some xi → y !! i = Some (rank x xi)).
Proof.
  intros y. split_and!.
  - apply relabel_length.
  - intros i j xi xj yi yj Hxi Hxj Hyi Hyj.
    unfold y in *. rewrite (relabel_lookup x i xi Hxi) in Hyi.
    rewrite (relabel_lookup x j xj Hxj) in Hyj.
    injection Hyi as <-. injection Hyj as <-. split; [|by intros ->].
    apply rank_inj; by eapply list_elem_of_lookup_2.
  - apply relabel_values.
  - apply relabel_lookup.
Qed.

Lemma distinct_but_small_dense_rank_witness :
  let x := [7; -3; 7; 100; -3] in
  _distinct_but_small x !! 3%nat = Some (rank x 100) ∧
  ((1 : Z) = 1 ↔ (7 : Z) = 7) ∧
  (2 ∈ _distinct_but_small x ↔ 0 ≤ 2 < Z.of_nat (distinct_count x)).
Proof.
  intros x. destruct (distinct_but_small_dense_rank x) as (_ & Hiff & Hset & Hrank).
  split_and!.
  - apply (Hrank 3%nat 100). reflexivity.
  - apply (Hiff 0%nat 2%nat 7 7 1 1); reflexivity.
  - apply (Hset 2).
Defined.

(** ** Facts about the scatter *)

Lemma filter_agree {A} (P1 P2 : A → Prop)
    `{!∀ x, Decision (P1 x), !∀ x, Decision (P2 x)} (l : list A) :
  Forall (λ x, P1 x ↔ P2 x) l → filter P1 l = filter P2 l.
Proof.
  induction 1 as [|a l Ha _ IH]; [done|].
  destruct (decide (P1 a)).
  - rewrite !filter_cons_True by tauto. by rewrite IH.
  - rewrite !filter_cons_False by tauto. by rewrite IH.
Qed.

Lemma slot_of_nonneg (n b : nat) (i : Z) :
  0 ≤ i → (b < n)%nat → slot_of n i = Some b ↔ i = Z.of_nat b.
Proof.
  intros Hi Hb. unfold slot_of, wrap_index.
  destruct (Z.ltb_spec i 0); [lia|].
  destruct (Z.leb_spec 0 i); [|lia]. simpl.
  destruct (Z.ltb_spec i (Z.of_nat n)); split; intros Heq; try done.
  - injection Heq as <-. lia.
  - subst i. by rewrite Nat2Z.id.
  - lia.
Qed.

Lemma clip_index_in_range (n : nat) (i : Z) :
  0 ≤ i < Z.of_nat n → clip_index n i = Z.to_nat i.
Proof.
  intros Hi. unfold clip_index, wrap_index.
  destruct (Z.ltb_spec i 0); lia.
Qed.

Section ScatterFacts.
Context {F : Type} `{Scalar F}.

Lemma add_at_length (acc : list (list F)) (ir : Z * list F) :
  length (add_at acc ir) = length acc.
Proof. unfold add_at. destruct (slot_of _ _); [apply length_alter|done]. Qed.

Lemma foldl_add_at_length (l : list (Z * list F)) (acc : list (list F)) :
  length (foldl add_at acc l) = length acc.
Proof.
  revert acc. induction l as [|ir l IH]; intros acc; [done|].
  simpl. by rewrite IH, add_at_length.
Qed.

(** Slot [b] after the scatter: its old content plus, in row order, every
    row whose index addresses [b]. *)
Lemma foldl_add_at_lookup (l : list (Z * list F)) (acc : list (list F)) (b : nat) :
  foldl add_at acc l !! b =
  (λ o, foldl row_add o (filter (λ ir, slot_of (length acc) ir.1 = Some b) l).*2)
    <$> acc !! b.
Proof.
  revert acc. induction l as [|[i r] l IH]; intros acc.
  - simpl. by destruct (acc !! b).
  - cbn [foldl]. rewrite IH, add_at_length. unfold add_at at 1. cbn [fst snd].
    destruct (slot_of (length acc) i) as [j|] eqn:Hj.
    + destruct (decide (j = b)) as [->|Hne].
      * rewrite list_lookup_alter_eq, filter_cons_True by done.
        by destruct (acc !! b).
      * rewrite list_lookup_alter_ne, filter_cons_False by (cbn; congruence).
        done.
    + by rewrite filter_cons_False by (cbn; congruence).
Qed.

(** Updates whose index addresses no slot can be left out. *)
Lemma foldl_add_at_drop (P : Z * list F → Prop) `{!∀ ir, Decision (P ir)}
    (l : list (Z * list F)) (acc : list (list F)) :
  Forall (λ ir, ¬ P ir → slot_of (length acc) ir.1 = None) l →
  foldl add_at acc l = foldl add_at acc (filter P l).
Proof.
  intros Hl. revert acc Hl. induction l as [|[i r] l IH]; intros acc Hl; [done|].
  apply Forall_cons in Hl as [Hir Hl]. cbn [foldl].
  destruct (decide (P (i, r))) as [HP|HP].
  - rewrite filter_cons_True by done. cbn [foldl].
    apply IH. by rewrite add_at_length.
  - rewrite filter_cons_False by done. unfold add_at at 2.
    rewrite (Hir HP). by apply IH.
Qed.

Lemma zeros_lookup (n : nat) (tr : list nat) (b : nat) :
  (b < n)%nat → rows (zeros n tr) !! b = Some (zero_row tr).
Proof. intros Hb. simpl. by apply lookup_replicate_2. Qed.

(** Each bucket of a scatter into zeros with non-negative indices. *)
Lemma scatter_bucket (indices : list Z) (x : ndarray F) (n : nat) (tr : list nat) (b : nat) :
  Forall (Z.le 0) indices → (b < n)%nat →
  rows (at_add (zeros n tr) indices x) !! b
  = Some (row_sum tr (bucket_rows indices (rows x) (Z.of_nat b))).
Proof.
  intros Hnn Hb. unfold at_add. cbn [rows].
  rewrite foldl_add_at_lookup. fold (rows (zeros n tr)).
  rewrite zeros_lookup by done. cbn [fmap option_fmap option_map]. f_equal.
  unfold row_sum, bucket_rows. do 2 f_equal.
  simpl. rewrite length_replicate. apply filter_agree.
  apply Forall_forall. intros [i r] Hir. cbn [fst].
  apply slot_of_nonneg; [|done].
  apply elem_of_zip_l in Hir. rewrite Forall_forall in Hnn. by apply Hnn.
Qed.

Lemma scatter_shape (indices : list Z) (x : ndarray F) (n : nat) (tr : list nat) :
  shape (at_add (zeros n tr) indices x) = n :: tr.
Proof.
  unfold shape, at_add. cbn [rows trailing].
  rewrite foldl_add_at_length. simpl. by rewrite length_replicate.
Qed.

Lemma bucket_rows_absent (indices : list Z) (xs : list (list F)) (b : Z) :
  b ∉ indices → bucket_rows indices xs b = [].
Proof.
  intros Hb. unfold bucket_rows.
  rewrite (filter_agree _ (λ _, False)); [by induction (zip indices xs)|].
  apply Forall_forall. intros [i r] Hir%elem_of_zip_l. cbn. split; [|done].
  by intros ->.
Qed.

End ScatterFacts.

(** ** Rows entry by entry *)

Section RowEntries.
Context {F : Type} `{Scalar F}.

Lemma row_size_product (tr : list nat) : row_size tr = dims_product tr.
Proof. induction tr as [|d tr IH]; [done|]. cbn. by rewrite <- IH. Qed.

Lemma zero_row_replicate (tr : list nat) :
  zero_row tr = replicate (dims_product tr) fzero.
Proof. unfold zero_row. by rewrite row_size_product. Qed.

(** A sum of rows of width [w] from a row of width [w]: width [w] again,
    and at each position the entries there, added in row order. *)
Lemma foldl_row_add_entries (w : nat) (rs : list (list F)) (acc : list F) :
  length acc = w → Forall (λ r, length r = w) rs →
  length (foldl row_add acc rs) = w ∧
  ∀ c a, acc !! c = Some a →
    foldl row_add acc rs !! c = Some (foldl fadd a (column c rs)).
Proof.
  intros Hacc Hrs. revert acc Hacc.
  induction Hrs as [|r rs Hr _ IH]; intros acc Hacc; [by split; intros|].
  cbn [foldl].
  destruct (IH (row_add acc r)) as [Hlen Hentry].
  { unfold row_add. rewrite length_zip_with. lia. }
  split; [done|]. intros c a Hc.
  destruct (lookup_lt_is_Some_2 r c) as [rc Hrc].
  { apply lookup_lt_Some in Hc. lia. }
  rewrite (Hentry c (fadd a rc)).
  - unfold column. cbn [omap list_omap]. by rewrite Hrc.
  - unfold row_add. by rewrite lookup_zip_with, Hc, Hrc.
Qed.

Lemma row_sum_entries (tr : list nat) (rs : list (list F)) :
  Forall (λ r, length r = dims_product tr) rs →
  length (row_sum tr rs) = dims_product tr ∧
  ∀ c, (c < dims_product tr)%nat →
    row_sum tr rs !! c = Some (sum_of (column c rs)).
Proof.
  intros Hrs. unfold row_sum, sum_of.
  destruct (foldl_row_add_entries (dims_product tr) rs (zero_row tr)) as [Hlen Hentry];
    [by rewrite zero_row_replicate, length_replicate|done|].
  split; [done|]. intros c Hc. apply Hentry.
  rewrite zero_row_replicate. by apply lookup_replicate_2.
Qed.

(** A slot that holds a sum of rows, described entry by entry. *)
Lemma row_sum_described (tr : list nat) (rs : list (list F)) (l : list (list F))
    (b : nat) :
  l !! b = Some (row_sum tr rs) →
  Forall (λ r, length r = dims_product tr) rs →
  ∃ row, l !! b = Some row ∧ length row = dims_product tr ∧
    ∀ c, (c < dims_product tr)%nat → row !! c = Some (sum_of (column c rs)).
Proof.
  intros Hb Hrs. destruct (row_sum_entries tr rs Hrs) as [Hlen Hentry].
  by exists (row_sum tr rs).
Qed.

Lemma bucket_rows_Forall (P : list F → Prop) (indices : list Z) (xs : list (list F))
    (b : Z) :
  Forall P xs → Forall P (bucket_rows indices xs b).
Proof.
  intros Hxs. unfold bucket_rows. rewrite Forall_fmap. apply Forall_forall.
  intros [i r] [_ Hir%elem_of_zip_r]%list_elem_of_filter. cbn.
  rewrite Forall_forall in Hxs. by apply Hxs.
Qed.

Lemma slot_rows_Forall (P : list F → Prop) (n : nat) (indices : list Z)
    (xs : list (list F)) (b : nat) :
  Forall P xs → Forall P (slot_rows n indices xs b).
Proof.
  intros Hxs. unfold slot_rows. rewrite Forall_fmap. apply Forall_forall.
  intros [i r] [_ Hir%elem_of_zip_r]%list_elem_of_filter. cbn.
  rewrite Forall_forall in Hxs. by apply Hxs.
Qed.

(** A scatter of a rectangular array into zeros is rectangular. *)
Lemma scatter_rectangular (indices : list Z) (x : ndarray F) (n : nat) :
  rectangular x → rectangular (at_add (zeros n (trailing x)) indices x).
Proof.
  intros Hx. unfold rectangular. apply Forall_lookup. intros b row Hrow.
  assert (b < n)%nat as Hb.
  { apply lookup_lt_Some in Hrow. unfold at_add in Hrow. cbn [rows zeros] in Hrow.
    by rewrite foldl_add_at_length, length_replicate in Hrow. }
  unfold at_add in Hrow. cbn [rows] in Hrow. rewrite foldl_add_at_lookup in Hrow.
  fold (rows (zeros n (trailing x))) in Hrow. rewrite zeros_lookup in Hrow by done.
  cbn in Hrow. injection Hrow as <-.
  apply (foldl_row_add_entries (dims_product (trailing x))).
  - by rewrite zero_row_replicate, length_replicate.
  - rewrite Forall_fmap. apply Forall_forall.
    intros [i r] [_ Hir%elem_of_zip_r]%list_elem_of_filter. cbn.
    unfold rectangular in Hx. rewrite Forall_forall in Hx. by apply Hx.
Qed.

End RowEntries.

(** ** Properties of index_add *)

Section IndexAddProps.
Context {F : Type} `{Scalar F}.

Lemma slot_of_beyond (n : nat) (i : Z) : Z.of_nat n ≤ i → slot_of n i = None.
Proof.
  intros Hi. unfold slot_of, wrap_index. destruct (Z.ltb_spec i 0); [lia|].
  destruct (Z.ltb_spec i (Z.of_nat n)); [lia|]. by rewrite andb_false_r.
Qed.

(** The call with an explicit [out_dim], on arrays of matching length. *)
Lemma index_add_sized (indices : list Z) (input : features F) (d : nat) :
  length indices = length (rows (data input)) →
  ∃ out, index_add indices input (Some d) false = inr out ∧
    data out = at_add (zeros d (trailing (data input))) indices (data input) ∧
    match input, out with
    | Plain _, Plain _ => True
    | Labeled ia, Labeled oa => irreps oa = irreps ia
    | _, _ => False
    end.
Proof.
  intros Hlen. unfold index_add. rewrite Hlen, Nat.eqb_refl. cbn [negb].
  destruct input; eexists; (split; [reflexivity|]); done.
Qed.

(** C1. With [map_back=False], an explicit [out_dim] and every index in
    [0, out_dim), the call returns an array of shape
    [(out_dim, trailing shape of the input)]: [out_dim] rows, each as wide as
    the trailing shape says, whose bucket [b] holds at every position the
    sum of the entries there of the input rows with index [b]; a bucket no
    row maps to is all zeros. *)
Theorem index_add_bucket_sums (indices : list Z) (input : features F) (out_dim : nat) :
  length indices = length (rows (data input)) →
  rectangular (data input) →
  Forall (λ i, 0 ≤ i < Z.of_nat out_dim) indices →
  let w := dims_product (trailing (data input)) in
  ∃ out, index_add indices input (Some out_dim) false = inr out ∧
    shape (data out) = out_dim :: trailing (data input) ∧
    rectangular (data out) ∧
    ∀ b, (b < out_dim)%nat →
      ∃ row, rows (data out) !! b = Some row ∧ length row = w ∧
        (∀ c, (c < w)%nat →
           row !! c
           = Some (sum_of (column c (bucket_rows indices (rows (data input))
                                       (Z.of_nat b))))) ∧
        (Z.of_nat b ∉ indices → row = replicate w fzero).
Proof.
  intros Hlen Hrect Hin w. destruct (index_add_sized indices input out_dim Hlen)
    as (out & Hout & Hdata & _).
  exists out. split; [done|]. rewrite Hdata. split; [apply scatter_shape|].
  split; [by apply scatter_rectangular|].
  intros b Hb.
  assert (Forall (Z.le 0) indices) as Hnn by (eapply Forall_impl; [done|]; cbn; lia).
  pose proof (scatter_bucket indices (data input) out_dim (trailing (data input)) b
                Hnn Hb) as Hrow.
  destruct (row_sum_described _ _ _ _ Hrow) as (row & Hrow' & Hw & Hentry).
  { by apply bucket_rows_Forall. }
  exists row. split_and!; try done.
  intros Habs. rewrite Hrow in Hrow'. injection Hrow' as <-.
  rewrite bucket_rows_absent by done. apply zero_row_replicate.
Qed.

(** C10. With [map_back=False] and an explicit [out_dim], a row whose
    index is [out_dim] or more raises nothing: the call returns, every
    bucket holds at every position the sum of the entries there of the rows
    with exactly that index, and the result is the one the call gives on the
    in-range rows alone. *)
Theorem index_add_out_of_range_dropped (indices : list Z) (input : features F)
    (out_dim : nat) :
  length indices = length (rows (data input)) →
  rectangular (data input) →
  Forall (Z.le 0) indices →
  let w := dims_product (trailing (data input)) in
  let kept := filter (λ ir, ir.1 < Z.of_nat out_dim) (zip indices (rows (data input))) in
  ∃ out, index_add indices input (Some out_dim) false = inr out ∧
    length (rows (data out)) = out_dim ∧
    (∀ b, (b < out_dim)%nat →
      ∃ row, rows (data out) !! b = Some row ∧ length row = w ∧
        ∀ c, (c < w)%nat →
          row !! c
          = Some (sum_of (column c (bucket_rows indices (rows (data input))
                                      (Z.of_nat b))))) ∧
    index_add kept.*1 (Plain (NdArray (trailing (data input)) kept.*2)) (Some out_dim) false
    = inr (Plain (data out)).
Proof.
  intros Hlen Hrect Hnn w kept. destruct (index_add_sized indices input out_dim Hlen)
    as (out & Hout & Hdata & _).
  exists out. split; [done|]. rewrite Hdata. split_and!.
  - pose proof (scatter_shape indices (data input) out_dim (trailing (data input))) as Hs.
    by injection Hs.
  - intros b Hb.
    apply (row_sum_described (trailing (data input))); [by apply scatter_bucket|].
    by apply bucket_rows_Forall.
  - destruct (index_add_sized kept.*1 (Plain (NdArray (trailing (data input)) kept.*2)) out_dim)
      as (out' & Hout' & Hdata' & Hkind).
    { cbn. by rewrite !length_fmap. }
    rewrite Hout'. destruct out' as [a'|]; [|done]. cbn in Hdata'. subst a'.
    do 2 f_equal. unfold at_add. cbn [rows trailing]. f_equal.
    rewrite zip_fst_snd. symmetry. apply foldl_add_at_drop.
    apply Forall_forall. intros [i r] Hir%elem_of_zip_l Hge. cbn [fst] in *.
    cbn [zeros rows]. rewrite length_replicate. apply slot_of_beyond. lia.
Qed.

Lemma bucket_rows_fmap (f : Z → Z) (x : list Z) (xs : list (list F)) (k : Z) :
  (∀ w, w ∈ x → f w = f k ↔ w = k) →
  bucket_rows (f <$> x) xs (f k) = bucket_rows x xs k.
Proof.
  revert xs. induction x as [|a x IH]; intros xs Hf; [done|].
  destruct xs as [|r xs]; [done|].
  assert (bucket_rows (f <$> x) xs (f k) = bucket_rows x xs k) as IH'.
  { apply IH. intros w Hw. apply Hf. by right. }
  unfold bucket_rows in *. rewrite fmap_cons. cbn [zip zip_with].
  rewrite !filter_cons. cbn [fst].
  pose proof (Hf a ltac:(by left)) as Ha.
  destruct (decide (f a = f k)), (decide (a = k)); try tauto.
  by rewrite !fmap_cons, IH'.
Qed.

(** The call in map-back mode, on arrays of matching length. *)
Lemma index_add_mapped (indices : list Z) (input : features F) :
  length indices = length (rows (data input)) →
  let y := _distinct_but_small indices in
  ∃ out, index_add indices input None true = inr out ∧
    data out = take_rows (at_add (zeros (length indices) (trailing (data input))) y
                            (data input)) y.
Proof.
  intros Hlen y. unfold index_add. rewrite Hlen, Nat.eqb_refl. cbn [negb].
  destruct input; eexists; (split; [reflexivity|]); done.
Qed.

(** C2. With [map_back=True] and [out_dim] unset, the result has as many
    rows as the input, each as wide as the trailing shape says, and row [i]
    holds at every position the sum of the entries there of the input rows
    whose index equals [indices[i]]: the indices are relabeled into [0, k)
    with [k <= N], scattered into [N] buckets and gathered back. *)
Theorem index_add_map_back_sums (indices : list Z) (input : features F) :
  length indices = length (rows (data input)) →
  rectangular (data input) →
  let y := _distinct_but_small indices in
  let w := dims_product (trailing (data input)) in
  ∃ out, index_add indices input None true = inr out ∧
    length (rows (data out)) = length indices ∧
    trailing (data out) = trailing (data input) ∧
    (∀ i k, indices !! i = Some k →
       ∃ row, rows (data out) !! i = Some row ∧ length row = w ∧
         ∀ c, (c < w)%nat →
           row !! c
           = Some (sum_of (column c (bucket_rows indices (rows (data input)) k)))) ∧
    Forall (λ v, 0 ≤ v < Z.of_nat (distinct_count indices)) y ∧
    (distinct_count indices ≤ length indices)%nat ∧
    data out = take_rows (at_add (zeros (length indices) (trailing (data input))) y
                            (data input)) y.
Proof.
  intros Hlen Hrect y w.
  destruct (index_add_mapped indices input Hlen) as (out & Hout & Hdata).
  fold y in Hdata. exists out. split; [done|].
  assert (Forall (λ v, 0 ≤ v < Z.of_nat (distinct_count indices)) y) as Hy.
  { apply Forall_forall. intros v Hv. by apply relabel_values. }
  pose proof (distinct_count_le indices) as Hk.
  assert (∀ i k, indices !! i = Some k →
            rows (data out) !! i
            = Some (row_sum (trailing (data input))
                      (bucket_rows indices (rows (data input)) k))) as Hrows.
  { intros i k Hi. rewrite Hdata. unfold take_rows, gather. cbn [rows trailing].
    rewrite list_lookup_fmap.
    replace (y !! i) with (Some (rank indices k))
      by (symmetry; by apply relabel_lookup).
    cbn [fmap option_fmap option_map]. f_equal. unfold at_add. cbn [rows trailing].
    assert (k ∈ indices) as Hk_in by by eapply list_elem_of_lookup_2.
    pose proof (rank_bounds indices k Hk_in) as Hr.
    unfold getitem. rewrite foldl_add_at_length. cbn [zeros rows].
    rewrite length_replicate, clip_index_in_range by lia.
    pose proof (scatter_bucket y (data input) (length indices) (trailing (data input))
                  (Z.to_nat (rank indices k))) as Hb.
    unfold at_add in Hb. cbn [zeros rows] in Hb. rewrite Hb; cycle 1.
    { eapply Forall_impl; [exact Hy|]. cbn. lia. }
    { lia. }
    cbn [default from_option id]. f_equal. rewrite Z2Nat.id by lia.
    unfold y, _distinct_but_small.
    rewrite <- (relabel_key indices k Hk_in).
    apply (bucket_rows_fmap
             (λ i, hd 0 (where1 (Z.eqb i <$> unique indices (length indices)) 1 0))).
    intros v Hv. cbn beta. rewrite !relabel_key by done. split; [|by intros ->].
    by apply rank_inj. }
  split_and!; try done.
  - rewrite Hdata. unfold take_rows, gather. cbn [rows].
    by rewrite length_fmap; unfold y; rewrite relabel_length.
  - by rewrite Hdata.
  - intros i k Hi.
    apply (row_sum_described (trailing (data input))); [by apply Hrows|].
    by apply bucket_rows_Forall.
Qed.

(** C7. The call raises the configuration error when neither or both of
    the sizing modes are chosen, whatever the arrays, and returns nothing
    then; on arrays of matching length it raises that error exactly in these
    two cases and returns an output in the two others. *)
Theorem index_add_sizing_modes (indices : list Z) (input : features F)
    (out_dim : option nat) (map_back : bool) :
  let result := index_add indices input out_dim map_back in
  let neither := out_dim = None ∧ map_back = false in
  let both := is_Some out_dim ∧ map_back = true in
  (neither ∨ both → ∃ e, result = inl e) ∧
  (length indices = length (rows (data input)) →
   (neither ↔ result = inl (ValueError "out_dim must be specified if map_back is False")) ∧
   (both ↔ result = inl (ValueError "out_dim must not be specified if map_back is True")) ∧
   (¬ (neither ∨ both) ↔ ∃ out, result = inr out)).
Proof.
  intros result neither both. subst result neither both. split.
  - unfold index_add. intros [[-> ->]|[[d ->] ->]];
      destruct (negb _); eauto.
  - intros Hlen. unfold index_add. rewrite Hlen, Nat.eqb_refl. cbn [negb].
    destruct out_dim as [d|], map_back, input; cbn;
      (split_and!; split;
       [intros [Hn ?]; try done; by destruct Hn
       |intros ?; try done; eauto
       |intros [Hb ?]; try done; by destruct Hb
       |intros ?; try done; eauto
       |intros Hok; try (by eexists); destruct Hok; eauto
       |intros [? ?] [[Hn ?]|[Hb ?]]; try done; by (destruct Hn || destruct Hb)]).
Qed.

(** C8. On a labeled feature array the call gives what it gives on the
    underlying data, under the tag of the input: an error stays the error,
    an output is the labeled array of the same [irreps] around the scattered
    data. *)
Theorem index_add_keeps_irreps (indices : list Z) (ia : IrrepsArray F)
    (out_dim : option nat) (map_back : bool) :
  index_add indices (Labeled ia) out_dim map_back
  = match index_add indices (Plain (array ia)) out_dim map_back with
    | inl e => inl e
    | inr o => inr (Labeled (MkIrrepsArray (irreps ia) (data o)))
    end ∧
  ∀ out, index_add indices (Labeled ia) out_dim map_back = inr out →
    ∃ a, out = Labeled (MkIrrepsArray (irreps ia) a) ∧
      index_add indices (Plain (array ia)) out_dim map_back = inr (Plain a).
Proof.
  unfold index_add. cbn [data]. destruct (negb _); [split; [done|by intros ?]|].
  destruct out_dim as [d|], map_back; split; try done; intros out [= <-]; eauto.
Qed.

End IndexAddProps.

(** The index_add properties on concrete arrays of integers. *)

Lemma index_add_bucket_sums_witness :
  ∃ out, index_add [0; 2; 2; 0]
           (Plain (NdArray [2%nat] [[1; 10]; [2; 20]; [3; 30]; [-10; 5]]))
           (Some 4%nat) false = inr out ∧
    shape (data out) = [4%nat; 2%nat] ∧
    (∃ row, rows (data out) !! 2%nat = Some row ∧ length row = 2%nat ∧
       row !! 0%nat = Some 5 ∧ row !! 1%nat = Some 50) ∧
    rows (data out) !! 3%nat = Some [0; 0].
Proof.
  destruct (index_add_bucket_sums [0; 2; 2; 0]
              (Plain (NdArray [2%nat] [[1; 10]; [2; 20]; [3; 30]; [-10; 5]])) 4)
    as (out & Hout & Hshape & _ & Hb).
  - reflexivity.
  - repeat constructor.
  - repeat constructor; lia.
  - exists out. split_and!; [done|done|..].
    + destruct (Hb 2%nat ltac:(lia)) as (row & Hrow & Hw & Hentry & _).
      exists row. split_and!; [done|done|..].
      * rewrite (Hentry 0%nat) by (cbn; lia). reflexivity.
      * rewrite (Hentry 1%nat) by (cbn; lia). reflexivity.
    + destruct (Hb 3%nat ltac:(lia)) as (row & Hrow & _ & _ & Hzero).
      rewrite Hrow, Hzero; [reflexivity|].
      intros Hin. repeat (apply elem_of_cons in Hin as [?|Hin]; [lia|]).
      by apply elem_of_nil in Hin.
Defined.

Lemma index_add_out_of_range_dropped_witness :
  ∃ out, index_add [0; 7; 2; 4; 2]
           (Plain (NdArray [2%nat] [[1; 10]; [2; 20]; [3; 30]; [-10; 5]; [4; 40]]))
           (Some 3%nat) false = inr out ∧
    (∃ row, rows (data out) !! 2%nat = Some row ∧
       row !! 0%nat = Some 7 ∧ row !! 1%nat = Some 70) ∧
    index_add [0; 2; 2] (Plain (NdArray [2%nat] [[1; 10]; [3; 30]; [4; 40]]))
      (Some 3%nat) false = inr (Plain (data out)).
Proof.
  destruct (index_add_out_of_range_dropped [0; 7; 2; 4; 2]
              (Plain (NdArray [2%nat] [[1; 10]; [2; 20]; [3; 30]; [-10; 5]; [4; 40]])) 3)
    as (out & Hout & Hlen & Hb & Hkept).
  - reflexivity.
  - repeat constructor.
  - repeat constructor; lia.
  - exists out. split_and!; [done| |exact Hkept].
    destruct (Hb 2%nat ltac:(lia)) as (row & Hrow & _ & Hentry).
    exists row. split_and!; [done|..].
    + rewrite (Hentry 0%nat) by (cbn; lia). reflexivity.
    + rewrite (Hentry 1%nat) by (cbn; lia). reflexivity.
Defined.

Lemma index_add_map_back_sums_witness :
  ∃ out, index_add [5; -2; 5; 9]
           (Plain (NdArray [2%nat] [[1; 10]; [2; 20]; [3; 30]; [-10; 5]])) None true
         = inr out ∧
    length (rows (data out)) = 4%nat ∧
    ∃ row, rows (data out) !! 2%nat = Some row ∧ length row = 2%nat ∧
      row !! 0%nat = Some 4 ∧ row !! 1%nat = Some 40.
Proof.
  destruct (index_add_map_back_sums [5; -2; 5; 9]
              (Plain (NdArray [2%nat] [[1; 10]; [2; 20]; [3; 30]; [-10; 5]])))
    as (out & Hout & Hlen & _ & Hrow & _).
  - reflexivity.
  - repeat constructor.
  - exists out. split_and!; [done|done|].
    destruct (Hrow 2%nat 5 eq_refl) as (row & Hr & Hw & Hentry).
    exists row. split_and!; [done|done|..].
    + rewrite (Hentry 0%nat) by (cbn; lia). reflexivity.
    + rewrite (Hentry 1%nat) by (cbn; lia). reflexivity.
Defined.

Lemma index_add_sizing_modes_witness :
  index_add [0; 1] (Plain (NdArray [] [[1]; [2]])) None false
  = inl (ValueError "out_dim must be specified if map_back is False") ∧
  index_add [0; 1] (Plain (NdArray [] [[1]; [2]])) (Some 2%nat) true
  = inl (ValueError "out_dim must not be specified if map_back is True") ∧
  ∃ e, index_add [0] (Plain (NdArray [] [[1]; [2]])) None false = inl e.
Proof.
  split_and!.
  - destruct (index_add_sizing_modes [0; 1] (Plain (NdArray [] [[1]; [2]])) None false)
      as [_ Hexact]. destruct (Hexact eq_refl) as ([Hn _] & _). by apply Hn.
  - destruct (index_add_sizing_modes [0; 1] (Plain (NdArray [] [[1]; [2]])) (Some 2%nat) true)
      as [_ Hexact]. destruct (Hexact eq_refl) as (_ & [Hb _] & _). by apply Hb.
  - destruct (index_add_sizing_modes [0] (Plain (NdArray [] [[1]; [2]])) None false)
      as [Hany _]. apply Hany. by left.
Defined.

Lemma index_add_keeps_irreps_witness :
  let ia := MkIrrepsArray [("0e", 2%nat, 1%nat)] (NdArray [2%nat] [[1; 2]; [3; 4]; [5; 6]]) in
  ∃ a, index_add [1; 0; 1] (Labeled ia) (Some 2%nat) false
       = inr (Labeled (MkIrrepsArray [("0e", 2%nat, 1%nat)] a)) ∧
    index_add [1; 0; 1] (Plain (array ia)) (Some 2%nat) false = inr (Plain a).
Proof.
  intros ia.
  destruct (index_add_keeps_irreps [1; 0; 1] ia (Some 2%nat) false) as [_ Htag].
  destruct (Htag _ eq_refl) as (a & Ha & Hplain).
  exists a. split; [exact (f_equal inr Ha)|exact Hplain].
Defined.

(** ** Facts about the extraction of the true positions *)

Lemma elem_of_nonzero_from (c : list bool) (k j : Z) :
  j ∈ nonzero_from k c ↔ ∃ n : nat, j = k + Z.of_nat n ∧ c !! n = Some true.
Proof.
  revert k. induction c as [|b c IH]; intros k.
  - simpl. split; [by intros ?%elem_of_nil|by intros (n & _ & ?)].
  - assert (j ∈ nonzero_from (k + 1) c ↔
            ∃ n : nat, j = k + Z.of_nat (S n) ∧ c !! n = Some true) as IH'.
    { rewrite IH. split; intros (n & -> & Hn); exists n; (split; [lia|done]). }
    cbn [nonzero_from]. destruct b.
    + rewrite elem_of_cons, IH'. split.
      * intros [->|(n & -> & Hn)]; [exists 0%nat|exists (S n)]; (split; [lia|done]).
      * intros ([|n] & -> & Hn); [left; lia|right; eauto].
    + rewrite IH'. split.
      * intros (n & -> & Hn). by exists (S n).
      * intros ([|n] & -> & Hn); [done|eauto].
Qed.

Lemma elem_of_nonzero2 (mask : list (list bool)) (i j : Z) :
  (i, j) ∈ nonzero2 mask ↔
  ∃ (a b : nat) row, i = Z.of_nat a ∧ j = Z.of_nat b ∧
    mask !! a = Some row ∧ row !! b = Some true.
Proof.
  unfold nonzero2. rewrite list_elem_of_join. split.
  - intros (l & Hij & (a & row & -> & Ha)%elem_of_lookup_imap).
    apply list_elem_of_fmap in Hij as (j' & [= -> ->] & Hj).
    apply elem_of_nonzero_from in Hj as (b & -> & Hb).
    exists a, b, row. split_and!; [done|lia|done..].
  - intros (a & b & row & -> & -> & Ha & Hb).
    exists (pair (Z.of_nat a) <$> nonzero_from 0 row). split.
    + apply list_elem_of_fmap_2, elem_of_nonzero_from. exists b. split; [lia|done].
    + apply elem_of_lookup_imap. eauto.
Qed.

Lemma compress_app {A} (a1 a2 : list A) (m1 m2 : list bool) :
  length a1 = length m1 →
  compress (a1 ++ a2) (m1 ++ m2) = compress a1 m1 ++ compress a2 m2.
Proof.
  revert m1. induction a1 as [|x a1 IH]; intros [|b m1] Hlen; try done.
  simpl in *. rewrite IH by lia. by destruct b.
Qed.

Lemma compress_all {A} (n : nat) (x : A) :
  compress (replicate n x) (replicate n true) = replicate n x.
Proof. induction n as [|n IH]; [done|]. simpl. by rewrite IH. Qed.

Lemma compress_length {A} (a : list A) (m : list bool) :
  (length (compress a m) ≤ length a)%nat.
Proof.
  revert m. induction a as [|x a IH]; intros [|b m]; simpl; try lia.
  specialize (IH m). destruct b; simpl; lia.
Qed.

(** What survives a boolean mask sits under a [true]. *)
Lemma compress_lookup2 {A B} (a : list A) (a' : list B) (m : list bool) (k : nat) x y :
  compress a m !! k = Some x → compress a' m !! k = Some y → length a = length a' →
  ∃ n, a !! n = Some x ∧ a' !! n = Some y ∧ m !! n = Some true.
Proof.
  revert a' m k. induction a as [|u a IH]; intros [|v a'] [|b m] k Hx Hy Hlen;
    try done.
  simpl in *. destruct b.
  - destruct k as [|k]; simpl in *.
    + exists 0%nat. by simplify_eq.
    + destruct (IH a' m k Hx Hy) as (n & ? & ? & ?); [lia|]. by exists (S n).
  - destruct (IH a' m k Hx Hy) as (n & ? & ? & ?); [lia|]. by exists (S n).
Qed.

Lemma compress_same_length {A B} (a : list A) (a' : list B) (m : list bool) :
  length a = length a' → length (compress a m) = length (compress a' m).
Proof.
  revert a' m. induction a as [|u a IH]; intros [|v a'] [|b m] Hlen; try done.
  simpl in *. destruct b; simpl; rewrite (IH a' m); lia.
Qed.

(** ** Properties of radius_graph *)

Lemma Z_self_distance (p : list Z) : euclidean p p = 0.
Proof.
  assert (∀ acc : Z,
            foldl (λ acc ab, fadd acc (fmul (fsub ab.1 ab.2) (fsub ab.1 ab.2)))
              acc (zip p p) = acc) as Hsum.
  { induction p as [|a p IH]; intros acc; [done|].
    cbn [zip zip_with foldl fst snd]. rewrite IH. cbn. lia. }
  unfold euclidean. by rewrite Hsum.
Qed.

Lemma Z_strict_scalar : StrictScalar Z.
Proof.
  split.
  - intros a. apply Z.ltb_irrefl.
  - intros p. by rewrite Z_self_distance.
Qed.

(** *** Binary64: strictness, and the difference of a float with itself *)

Lemma SFcompare_diag (s : spec_float) :
  SFcompare s s = None ∨ SFcompare s s = Some Eq.
Proof.
  destruct s as [[]|[]| |[] m e]; cbn; auto;
    rewrite Z.compare_refl, Pos.compare_cont_refl; auto.
Qed.

Lemma float_ltb_irrefl (x : float) : PrimFloat.ltb x x = false.
Proof.
  rewrite ltb_spec. unfold SFltb. by destruct (SFcompare_diag (Prim2SF x)) as [->| ->].
Qed.

Lemma float_of_spec (x : float) (s : spec_float) : Prim2SF x = s → x = SF2Prim s.
Proof. intros <-. symmetry. apply SF2Prim_Prim2SF. Qed.

(** [x - x] is zero, or NaN when [x] is an infinity or NaN. *)
Lemma float_sub_diag (x : float) :
  PrimFloat.sub x x = PrimFloat.zero ∨ PrimFloat.sub x x = PrimFloat.nan.
Proof.
  pose proof (sub_spec x x) as Hs. unfold SF64sub, SFsub in Hs.
  destruct (Prim2SF x) as [[]|[]| |s m e].
  1-2: left; by apply float_of_spec in Hs.
  1-3: right; by apply float_of_spec in Hs.
  left. rewrite Z.sub_diag in Hs. by apply float_of_spec in Hs.
Qed.

Lemma float_sub_diag_finite (x : float) :
  float_is_finite x = true → PrimFloat.sub x x = PrimFloat.zero.
Proof.
  unfold float_is_finite. intros Hf.
  pose proof (sub_spec x x) as Hs. unfold SF64sub, SFsub in Hs.
  destruct (Prim2SF x) as [[]|[]| |s m e]; try done.
  1-2: by apply float_of_spec in Hs.
  rewrite Z.sub_diag in Hs. by apply float_of_spec in Hs.
Qed.

(** The sum of squares of [p - p], from an accumulator that is zero or
    NaN. *)
Lemma float_squares_diag (p : list float) (acc : float) :
  acc = PrimFloat.zero ∨ acc = PrimFloat.nan →
  let total := foldl (λ acc ab, fadd acc (fmul (fsub ab.1 ab.2) (fsub ab.1 ab.2)))
                 acc (zip p p) in
  (total = PrimFloat.zero ∨ total = PrimFloat.nan) ∧
  (acc = PrimFloat.zero → Forall (λ x, float_is_finite x = true) p →
   total = PrimFloat.zero).
Proof.
  revert acc. induction p as [|x p IH]; intros acc Hacc; cbn zeta.
  - split; [done|]. by intros ->.
  - cbn [zip zip_with foldl fst snd fadd fmul fsub float_scalar].
    destruct (IH (PrimFloat.add acc (PrimFloat.mul (PrimFloat.sub x x) (PrimFloat.sub x x))))
      as [Hany Hfin].
    { destruct Hacc as [-> | ->], (float_sub_diag x) as [-> | ->]; auto. }
    split; [exact Hany|]. intros -> [Hx Hp]%Forall_cons.
    apply Hfin; [|done]. by rewrite (float_sub_diag_finite x Hx).
Qed.

(** In binary64 a point is never at a distance above zero from itself,
    and a point with finite coordinates is at distance zero from itself. *)
Lemma float_self_distance (p : list float) :
  fltb fzero (euclidean p p) = false ∧
  (Forall (λ x, float_is_finite x = true) p → euclidean p p = fzero).
Proof.
  unfold euclidean.
  destruct (float_squares_diag p PrimFloat.zero) as [Hany Hfin]; [by left|].
  cbn zeta in Hany, Hfin. cbn [fzero float_scalar fsqrt fltb]. split.
  - by destruct Hany as [-> | ->].
  - intros Hp. by rewrite (Hfin eq_refl Hp).
Qed.

Lemma float_strict_scalar : StrictScalar float.
Proof.
  split.
  - apply float_ltb_irrefl.
  - intros p. apply float_self_distance.
Qed.

Lemma edge_of_pairs (ps : list (Z * Z)) (s d : Z) :
  edge_of (ps.*1, ps.*2) s d ↔ (s, d) ∈ ps.
Proof.
  unfold edge_of. cbn [fst snd]. rewrite list_elem_of_lookup. split.
  - intros (k & Hs & Hd). exists k. rewrite !list_lookup_fmap in Hs, Hd.
    destruct (ps !! k) as [[s' d']|]; by simplify_eq/=.
  - intros (k & Hk). exists k. rewrite !list_lookup_fmap, Hk. done.
Qed.

Lemma getitem_in_range {A} (dflt : A) (a : list A) (i : Z) (x : A) :
  0 ≤ i → a !! Z.to_nat i = Some x → getitem dflt a i = x.
Proof.
  intros Hi Hx. unfold getitem. pose proof (lookup_lt_Some _ _ _ Hx).
  rewrite clip_index_in_range by lia. by rewrite Hx.
Qed.

Lemma getitem_last {A} (dflt : A) (a : list A) (x : A) :
  last a = Some x → getitem dflt a (-1) = x.
Proof.
  intros Hx. unfold getitem. rewrite last_lookup in Hx.
  assert (length a ≠ 0%nat) by (intros Hz; rewrite Hz in Hx; by destruct a).
  replace (clip_index (length a) (-1)) with (pred (length a)); [by rewrite Hx|].
  unfold clip_index, wrap_index. cbn [Z.ltb Z.compare]. lia.
Qed.

Section RadiusGraphProps.
Context {F : Type} `{Scalar F}.

Lemma radius_graph_exact (pos : list (list F)) (r_max : F) (loop : bool) :
  let ps := nonzero2 (adjacency (pairwise_norm pos) r_max loop) in
  radius_graph pos r_max None None loop = (ps.*1, ps.*2).
Proof. done. Qed.

(** The mask has no element exactly when there is no point. *)
Lemma adjacency_no_element (pos : list (list F)) (r_max : F) (loop : bool) :
  mjoin (adjacency (pairwise_norm pos) r_max loop) = [] ↔ pos = [].
Proof.
  split; [|by intros ->; destruct loop].
  destruct pos as [|p pos]; [done|]. by destruct loop.
Qed.

Lemma radius_graph_sized (pos : list (list F)) (r_max : F) (n : nat) (loop : bool) :
  let exact := radius_graph pos r_max None None loop in
  radius_graph pos r_max None (Some n) loop
  = if decide (pos = []) then (replicate n 0, replicate n 0)
    else (resize n (-1) exact.1, resize n (-1) exact.2).
Proof.
  cbn zeta. unfold radius_graph, where2.
  destruct (decide (pos = [])) as [->|Hne].
  - by destruct loop.
  - rewrite decide_False; [done|]. by rewrite adjacency_no_element.
Qed.

Lemma radius_graph_sized_length (pos : list (list F)) (r_max : F) (n : nat)
    (loop : bool) :
  let sized := radius_graph pos r_max None (Some n) loop in
  length sized.1 = n ∧ length sized.2 = n.
Proof.
  cbn zeta. rewrite radius_graph_sized.
  destruct (decide (pos = [])); cbn [fst snd];
    by rewrite ?length_replicate, ?length_resize.
Qed.

Lemma radius_graph_batched (pos : list (list F)) (r_max : F) (batch : list Z)
    (size : option nat) (loop : bool) :
  let before := radius_graph pos r_max None size loop in
  let keep := zip_with Z.eqb (gather 0 batch before.1) (gather 0 batch before.2) in
  radius_graph pos r_max (Some batch) size loop
  = (compress before.1 keep, compress before.2 keep).
Proof. unfold radius_graph. by destruct (where2 _ _ _). Qed.

Lemma radius_graph_exact_lengths (pos : list (list F)) (r_max : F) (loop : bool) :
  let exact := radius_graph pos r_max None None loop in
  length exact.1 = length exact.2.
Proof. intros exact. unfold exact. rewrite radius_graph_exact. cbn. by rewrite !length_fmap. Qed.

Lemma radius_graph_lengths (pos : list (list F)) (r_max : F) (size : option nat)
    (loop : bool) :
  let e := radius_graph pos r_max None size loop in
  length e.1 = length e.2.
Proof.
  destruct size as [n|]; [|apply radius_graph_exact_lengths].
  destruct (radius_graph_sized_length pos r_max n loop) as [H1 H2].
  cbn zeta in *. by rewrite H1, H2.
Qed.

(** Both branches of lines 102-105 as one test on a pair of points. *)
Lemma adjacency_rows (pos : list (list F)) (r_max : F) (loop : bool) :
  adjacency (pairwise_norm pos) r_max loop
  = (λ p, (λ q, fltb (norm (vsub p q)) r_max
                && (loop || fltb fzero (norm (vsub p q)))) <$> pos) <$> pos.
Proof.
  unfold adjacency, pairwise_norm. destruct loop;
    rewrite <- list_fmap_compose; apply list_fmap_ext; intros _ p _; cbn;
    rewrite <- list_fmap_compose; apply list_fmap_ext; intros _ q _; cbn.
  - by rewrite andb_true_r.
  - done.
Qed.

Lemma adjacency_is_set (pos : list (list F)) (r_max : F) (loop : bool) (i j : nat) :
  is_set (adjacency (pairwise_norm pos) r_max loop) i j ↔
  ∃ p q, pos !! i = Some p ∧ pos !! j = Some q ∧ within r_max loop p q.
Proof.
  rewrite adjacency_rows. unfold is_set, within. split.
  - intros (row & Hrow & Hj). rewrite list_lookup_fmap in Hrow.
    destruct (pos !! i) as [p|]; [|done]. injection Hrow as <-.
    rewrite list_lookup_fmap in Hj.
    destruct (pos !! j) as [q|]; [|done]. injection Hj as Hj.
    apply andb_true_iff in Hj as [Hlt Hgt]. exists p, q. split_and!; try done.
    intros ->. exact Hgt.
  - intros (p & q & Hp & Hq & Hlt & Hgt). eexists.
    rewrite !list_lookup_fmap, Hp. split; [done|].
    rewrite !list_lookup_fmap, Hq. cbn. f_equal. rewrite Hlt. cbn.
    destruct loop; [done|]. by apply Hgt.
Qed.

Lemma exact_edges (pos : list (list F)) (r_max : F) (loop : bool) (s d : Z) :
  edge_of (radius_graph pos r_max None None loop) s d ↔
  ∃ i j : nat, s = Z.of_nat i ∧ d = Z.of_nat j ∧
    is_set (adjacency (pairwise_norm pos) r_max loop) i j.
Proof.
  rewrite radius_graph_exact. cbn zeta. rewrite edge_of_pairs, elem_of_nonzero2.
  unfold is_set. split.
  - intros (a & b & row & -> & -> & Ha & Hb). exists a, b. split_and!; try done.
    by exists row.
  - intros (i & j & -> & -> & row & Hi & Hj). by exists i, j, row.
Qed.

(** Line 101 computes the Euclidean distance. *)
Lemma norm_vsub_euclidean (p q : list F) : norm (vsub p q) = euclidean p q.
Proof.
  unfold norm, vsub, euclidean. f_equal. generalize (fzero : F) as acc.
  revert q. induction p as [|a p IH]; intros [|b q] acc; try done.
  cbn [zip_with fmap list_fmap foldl zip fst snd]. apply IH.
Qed.

End RadiusGraphProps.

Section RadiusGraphClaims.
Context {F : Type} `{Scalar F}.

(** C3. Entry [(i, j)] of the adjacency mask is set exactly when the
    Euclidean distance of [pos[i]] and [pos[j]] is strictly below [r_max]
    and, with [loop=False], strictly above zero, and the edges returned
    without [size] and [batch] are exactly the set entries.  So a pair at
    distance exactly [r_max] is never an edge, coincident points (the
    diagonal among them) are no edge when [loop=False], and [(i, i)] is an
    edge when [loop=True], [0 < r_max] and [pos[i]] is at distance zero from
    itself, as every point of real coordinates is (in binary64: every point
    of finite coordinates, [float_self_distance]). *)
Theorem radius_graph_strict_thresholds `{!StrictScalar F}
    (pos : list (list F)) (r_max : F) (loop : bool) :
  let mask := adjacency (pairwise_norm pos) r_max loop in
  let edges := radius_graph pos r_max None None loop in
  (∀ i j, is_set mask i j ↔
     ∃ p q, pos !! i = Some p ∧ pos !! j = Some q ∧
       fltb (euclidean p q) r_max = true ∧
       (loop = false → fltb fzero (euclidean p q) = true)) ∧
  (∀ i j, is_set mask i j ↔ edge_of edges (Z.of_nat i) (Z.of_nat j)) ∧
  (∀ i j p q, pos !! i = Some p → pos !! j = Some q →
     euclidean p q = r_max → ¬ is_set mask i j) ∧
  (loop = false → ∀ i j p, pos !! i = Some p → pos !! j = Some p → ¬ is_set mask i j) ∧
  (loop = true → fltb fzero r_max = true →
     ∀ i p, pos !! i = Some p → euclidean p p = fzero → is_set mask i i).
Proof.
  intros mask edges.
  assert (∀ i j, is_set mask i j ↔
            ∃ p q, pos !! i = Some p ∧ pos !! j = Some q ∧
              fltb (euclidean p q) r_max = true ∧
              (loop = false → fltb fzero (euclidean p q) = true)) as Hmask.
  { intros i j. unfold mask. rewrite adjacency_is_set. unfold within.
    split; intros (p & q & Hp & Hq & Hlt & Hgt); exists p, q;
      rewrite norm_vsub_euclidean in *; by split_and!. }
  split_and!.
  - exact Hmask.
  - intros i j. unfold edges. rewrite exact_edges. split.
    + intros Hij. by exists i, j.
    + intros (i' & j' & ->%Nat2Z.inj & ->%Nat2Z.inj & Hij). exact Hij.
  - intros i j p q Hp Hq Hd (p' & q' & Hp' & Hq' & Hlt & _)%Hmask.
    rewrite Hp in Hp'. rewrite Hq in Hq'. injection Hp' as <-. injection Hq' as <-.
    rewrite Hd, fltb_irrefl in Hlt. done.
  - intros -> i j p Hp Hq (p' & q' & Hp' & Hq' & _ & Hgt)%Hmask.
    rewrite Hp in Hp'. rewrite Hq in Hq'. injection Hp' as <-. injection Hq' as <-.
    specialize (Hgt eq_refl). rewrite self_distance_not_above_zero in Hgt. done.
  - intros -> Hr i p Hp Hself. apply Hmask.
    exists p, p. split_and!; try done. by rewrite Hself.
Qed.

(** C5. With a batch array the result is the result without it, masked
    by [batch[src] == batch[dst]]: every returned pair joins two points of
    one batch, and, the mask being applied to the sized arrays, the result
    has at most [size] pairs and can have fewer. *)
Theorem radius_graph_batch_filter (pos : list (list F)) (r_max : F)
    (batch : list Z) (size : option nat) (loop : bool) :
  let before := radius_graph pos r_max None size loop in
  let after := radius_graph pos r_max (Some batch) size loop in
  let keep := zip_with Z.eqb (gather 0 batch before.1) (gather 0 batch before.2) in
  after = (compress before.1 keep, compress before.2 keep) ∧
  length after.1 = length after.2 ∧
  (∀ s d, edge_of after s d →
     getitem 0 batch s = getitem 0 batch d ∧ edge_of before s d) ∧
  (∀ s d bs bd, edge_of after s d → 0 ≤ s → 0 ≤ d →
     batch !! Z.to_nat s = Some bs → batch !! Z.to_nat d = Some bd → bs = bd) ∧
  (∀ n, size = Some n → (length after.1 ≤ n)%nat) ∧
  (∃ (pos' : list (list Z)) (r' : Z) (batch' : list Z) (n : nat),
     (length (radius_graph pos' r' (Some batch') (Some n) false).1 < n)%nat).
Proof.
  intros before after keep.
  assert (after = (compress before.1 keep, compress before.2 keep)) as Hafter
    by apply radius_graph_batched.
  pose proof (radius_graph_lengths pos r_max size loop) as Hlen. cbn zeta in Hlen.
  fold before in Hlen.
  assert (∀ s d, edge_of after s d →
            getitem 0 batch s = getitem 0 batch d ∧ edge_of before s d) as Hedge.
  { intros s d (k & Hs & Hd). rewrite Hafter in Hs, Hd. cbn [fst snd] in Hs, Hd.
    destruct (compress_lookup2 _ _ _ _ _ _ Hs Hd Hlen) as (m & Hms & Hmd & Hkeep).
    split; [|by exists m]. unfold keep, gather in Hkeep.
    rewrite lookup_zip_with, !list_lookup_fmap, Hms, Hmd in Hkeep.
    cbn in Hkeep. injection Hkeep as Hkeep. by apply Z.eqb_eq. }
  split_and!; try done.
  - rewrite Hafter. cbn [fst snd]. by apply compress_same_length.
  - intros s d bs bd Hsd Hs Hd Hbs Hbd. destruct (Hedge s d Hsd) as [Heq _].
    by rewrite (getitem_in_range 0 batch s bs), (getitem_in_range 0 batch d bd) in Heq.
  - intros n ->. rewrite Hafter. cbn [fst snd].
    etransitivity; [apply compress_length|].
    unfold before. by destruct (radius_graph_sized_length pos r_max n loop) as [-> _].
  - exists [[0; 0; 0]; [1; 0; 0]], 2, [0; 1], 2%nat. vm_compute. lia.
Qed.


(** C9. With [size] and a non-empty batch array, when fewer than [size]
    pairs are found the padding passes the batch mask.  For a non-empty
    [pos] the padding pairs are [(-1, -1)] and the result is the
    batch-filtered pairs followed by all of them; for an empty [pos] the
    padding is zeros and all of it stays.  [batch[-1]] is the last entry of
    [batch]. *)
Theorem radius_graph_padding_passes_batch (pos : list (list F)) (r_max : F)
    (batch : list Z) (n : nat) (loop : bool) :
  let exact := radius_graph pos r_max None None loop in
  let filtered := radius_graph pos r_max (Some batch) None loop in
  batch ≠ [] →
  (length exact.1 < n)%nat →
  (pos ≠ [] →
   radius_graph pos r_max (Some batch) (Some n) loop
   = (filtered.1 ++ replicate (n - length exact.1) (-1),
      filtered.2 ++ replicate (n - length exact.1) (-1))) ∧
  (pos = [] →
   radius_graph pos r_max (Some batch) (Some n) loop = (replicate n 0, replicate n 0)) ∧
  (∀ x, last batch = Some x → getitem 0 batch (-1) = x).
Proof.
  intros exact filtered _ Hlt. split_and!; [| |apply getitem_last].
  - intros Hne.
    pose proof (radius_graph_exact_lengths pos r_max loop) as Hlen. cbn zeta in Hlen.
    fold exact in Hlen.
    unfold filtered. rewrite !radius_graph_batched, radius_graph_sized.
    rewrite decide_False by done.
    fold exact. cbn [fst snd]. rewrite !resize_ge by lia. rewrite <- Hlen.
    unfold gather. rewrite !fmap_app, !fmap_replicate.
    rewrite zip_with_app by (by rewrite !length_fmap).
    rewrite zip_with_replicate, Z.eqb_refl.
    rewrite !compress_app, !compress_all; [done|..];
      rewrite length_zip_with, !length_fmap; lia.
  - intros ->. rewrite radius_graph_batched, radius_graph_sized.
    rewrite decide_True by done. cbn [fst snd].
    unfold gather. rewrite !fmap_replicate, zip_with_replicate, Z.eqb_refl.
    by rewrite !compress_all.
Qed.

End RadiusGraphClaims.

(** The thresholds on three collinear binary64 points at distances 5, 5
    and 10. *)
Lemma radius_graph_strict_thresholds_witness :
  let pos := [[0%float; 0%float; 0%float]; [3%float; 4%float; 0%float];
              [6%float; 8%float; 0%float]] in
  ¬ is_set (adjacency (pairwise_norm pos) 5%float false) 0 1 ∧
  ¬ is_set (adjacency (pairwise_norm pos) 5%float false) 1 1 ∧
  is_set (adjacency (pairwise_norm pos) 5%float true) 1 1 ∧
  edge_of (radius_graph pos 5.5%float None None false) 1 2.
Proof.
  intros pos.
  destruct (radius_graph_strict_thresholds (StrictScalar0 := float_strict_scalar)
              pos 5%float false) as (_ & _ & Hmax & Hzero & _).
  destruct (radius_graph_strict_thresholds (StrictScalar0 := float_strict_scalar)
              pos 5%float true) as (_ & _ & _ & _ & Hloop).
  destruct (radius_graph_strict_thresholds (StrictScalar0 := float_strict_scalar)
              pos 5.5%float false) as (Hmask & Hedges & _).
  split_and!.
  - apply (Hmax 0%nat 1%nat [0%float; 0%float; 0%float] [3%float; 4%float; 0%float]);
      vm_compute; reflexivity.
  - apply (Hzero eq_refl 1%nat 1%nat [3%float; 4%float; 0%float]); reflexivity.
  - apply (Hloop eq_refl eq_refl 1%nat [3%float; 4%float; 0%float]); [reflexivity|].
    apply float_self_distance. repeat constructor.
  - apply (Hedges 1%nat 2%nat), Hmask.
    exists [3%float; 4%float; 0%float], [6%float; 8%float; 0%float].
    split_and!; [reflexivity..| |intros _]; vm_compute; reflexivity.
Defined.

(** The radius_graph properties on three collinear points of the integer
    grid, at distances 1, 1 and 2. *)

Lemma radius_graph_batch_filter_witness :
  let pos := [[0; 0; 0]; [1; 0; 0]; [2; 0; 0]] in
  let after := radius_graph pos 2 (Some [0; 0; 1]) (Some 6%nat) false in
  after = ([0; 1; -1; -1], [1; 0; -1; -1]) ∧
  (length after.1 ≤ 6)%nat ∧
  getitem 0 [0; 0; 1] 0 = getitem 0 [0; 0; 1] 1.
Proof.
  intros pos after.
  destruct (radius_graph_batch_filter pos 2 [0; 0; 1] (Some 6%nat) false)
    as (Heq & _ & Hedge & _ & Hsize & _).
  split_and!.
  - exact Heq.
  - apply (Hsize 6%nat eq_refl).
  - apply (Hedge 0 1). exists 0%nat. split; reflexivity.
Defined.



Lemma radius_graph_padding_passes_batch_witness :
  radius_graph [[0; 0; 0]; [1; 0; 0]; [2; 0; 0]] 2 (Some [0; 0; 1]) (Some 6%nat) false
  = ([0; 1; -1; -1], [1; 0; -1; -1]).
Proof.
  destruct (radius_graph_padding_passes_batch
              [[0; 0; 0]; [1; 0; 0]; [2; 0; 0]] 2 [0; 0; 1] 6 false) as [Hpad _].
  - done.
  - vm_compute. lia.
  - by apply Hpad.
Defined.

(** ** Further properties of _distinct_but_small *)

Lemma rank_lt_iff (x : list Z) (a b : Z) :
  a ∈ x → b ∈ x → (rank x a < rank x b ↔ a < b).
Proof.
  intros Ha Hb.
  pose proof (position_of_key x a Ha) as Hpa. pose proof (position_of_key x b Hb) as Hpb.
  pose proof (rank_bounds x a Ha) as Hra. pose proof (rank_bounds x b Hb) as Hrb.
  pose proof (sorted_distinct_sorted x) as Hs.
  assert (∀ c d, c ∈ x → d ∈ x → rank x c < rank x d → c < d) as Hmono.
  { intros c d Hc Hd Hlt.
    apply (sorted_lookup_lt _ (Z.to_nat (rank x c)) (Z.to_nat (rank x d)) c d Hs).
    - pose proof (rank_bounds x c Hc). pose proof (rank_bounds x d Hd). lia.
    - by apply position_of_key.
    - by apply position_of_key. }
  split; [by apply Hmono|]. intros Hab.
  destruct (Z.lt_trichotomy (rank x a) (rank x b)) as [Hlt|[Heq|Hgt]]; [done|..].
  - apply rank_inj in Heq; [lia|done..].
  - apply Hmono in Hgt; [lia|done..].
Qed.

(** A key of an array whose values are exactly [0, ..., k-1] is its own
    rank. *)
Lemma rank_dense (x : list Z) (k : nat) (v : Z) :
  (∀ w, w ∈ x ↔ 0 ≤ w < Z.of_nat k) → v ∈ x → rank x v = v.
Proof.
  intros Hdense Hv. apply Hdense in Hv as Hvk. unfold rank.
  rewrite (Permutation_length (l' := seqZ 0 v)); [rewrite length_seqZ; lia|].
  apply NoDup_Permutation; [apply NoDup_remove_dups|apply NoDup_seqZ|].
  intros a. rewrite elem_of_remove_dups, list_elem_of_filter, elem_of_seqZ, Hdense. lia.
Qed.

Lemma relabel_dense_fixed (x : list Z) (k : nat) :
  (∀ w, w ∈ x ↔ 0 ≤ w < Z.of_nat k) → _distinct_but_small x = x.
Proof.
  intros Hdense. apply list_eq. intros i.
  destruct (x !! i) as [v|] eqn:Hi.
  - rewrite (relabel_lookup x i v Hi). f_equal.
    apply (rank_dense x k); [done|]. by eapply list_elem_of_lookup_2.
  - apply lookup_ge_None. rewrite relabel_length. by apply lookup_ge_None.
Qed.

(** X1. The relabeling keeps the order of the keys: a position holds a smaller
    label than another exactly when it holds a smaller key. *)
Theorem distinct_but_small_monotone (x : list Z) (i j : nat) (xi xj yi yj : Z) :
  x !! i = Some xi → x !! j = Some xj →
  _distinct_but_small x !! i = Some yi → _distinct_but_small x !! j = Some yj →
  (yi < yj ↔ xi < xj) ∧ (yi ≤ yj ↔ xi ≤ xj).
Proof.
  intros Hxi Hxj Hyi Hyj.
  rewrite (relabel_lookup x i xi Hxi) in Hyi. rewrite (relabel_lookup x j xj Hxj) in Hyj.
  injection Hyi as <-. injection Hyj as <-.
  assert (xi ∈ x) as Hi by by eapply list_elem_of_lookup_2.
  assert (xj ∈ x) as Hj by by eapply list_elem_of_lookup_2.
  pose proof (rank_lt_iff x xi xj Hi Hj). pose proof (rank_lt_iff x xj xi Hj Hi). lia.
Qed.

Lemma distinct_but_small_monotone_witness :
  ((0 : Z) < 2 ↔ (-3 : Z) < 100) ∧ ((0 : Z) ≤ 2 ↔ (-3 : Z) ≤ 100).
Proof.
  apply (distinct_but_small_monotone [7; -3; 7; 100; -3] 1 3 (-3) 100 0 2); reflexivity.
Defined.

(** X2. An array whose values are exactly [0, ..., k-1] is returned as it is. *)
Theorem distinct_but_small_fixes_dense (x : list Z) (k : nat) :
  (∀ w, w ∈ x ↔ 0 ≤ w < Z.of_nat k) → _distinct_but_small x = x.
Proof. apply relabel_dense_fixed. Qed.

Lemma distinct_but_small_fixes_dense_witness :
  _distinct_but_small [2; 0; 1; 0; 2] = [2; 0; 1; 0; 2].
Proof.
  apply (distinct_but_small_fixes_dense [2; 0; 1; 0; 2] 3). intros w.
  rewrite !elem_of_cons, elem_of_nil. lia.
Defined.

(** X3. Relabeling twice is relabeling once. *)
Theorem distinct_but_small_idempotent (x : list Z) :
  _distinct_but_small (_distinct_but_small x) = _distinct_but_small x.
Proof.
  apply (relabel_dense_fixed _ (distinct_count x)). intros w. apply relabel_values.
Qed.

Lemma rank_fmap_increasing (f : Z → Z) (x : list Z) (v : Z) :
  (∀ a b, a ∈ x → b ∈ x → a < b → f a < f b) →
  v ∈ x → rank (f <$> x) (f v) = rank x v.
Proof.
  intros Hf Hv.
  assert (∀ a b, a ∈ x → b ∈ x → (f a < f b ↔ a < b)) as Hiff.
  { intros a b Ha Hb. split; [|by apply Hf].
    intros Hlt. destruct (Z.lt_trichotomy a b) as [?|[->|Hgt]]; [done|lia|].
    apply Hf in Hgt; [lia|done..]. }
  unfold rank. f_equal.
  rewrite <- (length_fmap f (remove_dups (filter (λ w, w < v) x))).
  apply Permutation_length, NoDup_Permutation.
  - apply NoDup_remove_dups.
  - apply NoDup_fmap_2_strong; [|apply NoDup_remove_dups].
    intros a b Ha Hb Hab.
    apply elem_of_remove_dups, list_elem_of_filter in Ha as [_ Ha].
    apply elem_of_remove_dups, list_elem_of_filter in Hb as [_ Hb].
    destruct (Z.lt_trichotomy a b) as [Hlt|[?|Hlt]]; [|done|];
      (apply Hf in Hlt; [lia|done..]).
  - intros a. rewrite elem_of_remove_dups, list_elem_of_filter, !list_elem_of_fmap. split.
    + intros (Hlt & w & -> & Hw). exists w. split; [done|].
      apply elem_of_remove_dups, list_elem_of_filter. split; [|done].
      by apply (Hiff w v).
    + intros (w & -> & (Hlt & Hw)%elem_of_remove_dups%list_elem_of_filter).
      split; [by apply Hiff|]. by exists w.
Qed.

(** X4. The labels depend on the order of the keys only: mapping every key
    through a function that is increasing on the keys changes no label. *)
Theorem distinct_but_small_order_only (f : Z → Z) (x : list Z) :
  (∀ a b, a ∈ x → b ∈ x → a < b → f a < f b) →
  _distinct_but_small (f <$> x) = _distinct_but_small x.
Proof.
  intros Hf. apply list_eq. intros i. destruct (x !! i) as [v|] eqn:Hi.
  - rewrite (relabel_lookup x i v Hi).
    rewrite (relabel_lookup (f <$> x) i (f v)) by (by rewrite list_lookup_fmap, Hi).
    f_equal. apply rank_fmap_increasing; [done|]. by eapply list_elem_of_lookup_2.
  - transitivity (@None Z); [|symmetry]; apply lookup_ge_None;
      rewrite relabel_length, ?length_fmap; by apply lookup_ge_None.
Qed.

Lemma distinct_but_small_order_only_witness :
  _distinct_but_small ((λ a, 10 * a + 3) <$> [7; -3; 7; 100; -3])
  = _distinct_but_small [7; -3; 7; 100; -3].
Proof.
  apply (distinct_but_small_order_only (λ a, 10 * a + 3)). intros a b _ _ Hab. lia.
Defined.

(** ** Further facts about the scatter *)

Lemma slot_of_iff (n b : nat) (i : Z) :
  (b < n)%nat →
  slot_of n i = Some b ↔ i = Z.of_nat b ∨ i = Z.of_nat b - Z.of_nat n.
Proof.
  intros Hb. unfold slot_of, wrap_index.
  destruct (Z.ltb_spec i 0).
  - destruct (Z.leb_spec 0 (i + Z.of_nat n)), (Z.ltb_spec (i + Z.of_nat n) (Z.of_nat n));
      cbn [andb]; (split; [intros [= Heq]|intros Heq]); try lia; try (f_equal; lia).
  - destruct (Z.leb_spec 0 i), (Z.ltb_spec i (Z.of_nat n));
      cbn [andb]; (split; [intros [= Heq]|intros Heq]); try lia; try (f_equal; lia).
Qed.

Lemma slot_of_is_Some (n : nat) (i : Z) :
  is_Some (slot_of n i) ↔ - Z.of_nat n ≤ i < Z.of_nat n.
Proof.
  unfold slot_of, wrap_index.
  destruct (Z.ltb_spec i 0).
  - destruct (Z.leb_spec 0 (i + Z.of_nat n)), (Z.ltb_spec (i + Z.of_nat n) (Z.of_nat n));
      cbn [andb]; (split; [intros [? [=]]|intros ?]); try lia; eauto.
  - destruct (Z.leb_spec 0 i), (Z.ltb_spec i (Z.of_nat n));
      cbn [andb]; (split; [intros [? [=]]|intros ?]); try lia; eauto.
Qed.

Lemma slot_of_Some_lt (n b : nat) (i : Z) : slot_of n i = Some b → (b < n)%nat.
Proof.
  unfold slot_of. destruct (Z.leb_spec 0 (wrap_index n i)); cbn [andb]; [|done].
  destruct (Z.ltb_spec (wrap_index n i) (Z.of_nat n)); [|done].
  intros [= <-]. lia.
Qed.

Section ScatterLaws.
Context {F : Type} `{Scalar F}.

(** Each slot of a scatter into zeros, for indices of either sign. *)
Lemma scatter_slot (indices : list Z) (x : ndarray F) (n : nat) (tr : list nat) (b : nat) :
  (b < n)%nat →
  rows (at_add (zeros n tr) indices x) !! b
  = Some (row_sum tr (slot_rows n indices (rows x) b)).
Proof.
  intros Hb. unfold at_add. cbn [rows].
  rewrite foldl_add_at_lookup. fold (rows (zeros n tr)).
  rewrite zeros_lookup by done. cbn [fmap option_fmap option_map]. f_equal.
  unfold row_sum, slot_rows. do 2 f_equal.
  cbn [zeros rows]. rewrite length_replicate. apply filter_agree.
  apply Forall_forall. intros [i r] _. cbn [fst]. by apply slot_of_iff.
Qed.

Lemma row_add_comm `{!SumScalar F} (a b : list F) : row_add a b = row_add b a.
Proof.
  unfold row_add. revert b. induction a as [|u a IH]; intros [|v b]; try done.
  cbn. by rewrite fadd_comm, IH.
Qed.

Lemma row_add_assoc `{!SumScalar F} (a b c : list F) :
  row_add a (row_add b c) = row_add (row_add a b) c.
Proof.
  unfold row_add. revert b c. induction a as [|u a IH]; intros [|v b] [|w c]; try done.
  cbn. by rewrite fadd_assoc, IH.
Qed.

Lemma foldl_row_add_shift `{!SumScalar F} (l : list (list F)) (z r : list F) :
  foldl row_add (row_add z r) l = row_add (foldl row_add z l) r.
Proof.
  revert z. induction l as [|a l IH]; intros z; [done|]. cbn [foldl].
  rewrite <- IH. f_equal.
  by rewrite <- !row_add_assoc, (row_add_comm r a).
Qed.

Lemma foldl_row_add_perm `{!SumScalar F} (l l' : list (list F)) (z : list F) :
  l ≡ₚ l' → foldl row_add z l = foldl row_add z l'.
Proof.
  intros Hp. revert z. induction Hp as [|a l l' _ IH|a b l|l1 l2 l3 _ IH1 _ IH2];
    intros z; cbn [foldl].
  - done.
  - apply IH.
  - f_equal. by rewrite <- !row_add_assoc, (row_add_comm b a).
  - by rewrite IH1.
Qed.

(** Adding a row into one slot adds it to the total over the slots. *)
Lemma total_alter `{!SumScalar F} (acc : list (list F)) (j : nat) (z r : list F) :
  (j < length acc)%nat →
  foldl row_add z (alter (λ o, row_add o r) j acc) = row_add (foldl row_add z acc) r.
Proof.
  revert z j. induction acc as [|a acc IH]; intros z j Hj; [cbn in Hj; lia|].
  destruct j as [|j]; cbn [alter list_alter foldl].
  - by rewrite row_add_assoc, foldl_row_add_shift.
  - apply IH. cbn in Hj. lia.
Qed.

Lemma total_scatter `{!SumScalar F} (l : list (Z * list F)) (acc : list (list F))
    (z : list F) :
  Forall (λ ir, is_Some (slot_of (length acc) ir.1)) l →
  foldl row_add z (foldl add_at acc l) = foldl row_add (foldl row_add z acc) l.*2.
Proof.
  intros Hl. revert acc Hl. induction l as [|[i r] l IH]; intros acc Hl; [done|].
  apply Forall_cons in Hl as [[j Hj] Hl]. cbn [fst] in Hj. cbn [foldl fmap list_fmap snd].
  rewrite IH by (by rewrite add_at_length).
  unfold add_at at 1. cbn [fst snd]. rewrite Hj. f_equal.
  apply total_alter. by eapply slot_of_Some_lt.
Qed.

Lemma total_zeros `{!SumScalar F} (n : nat) (tr : list nat) :
  foldl row_add (zero_row tr) (replicate n (zero_row tr)) = zero_row tr.
Proof.
  induction n as [|n IH]; [done|]. cbn [replicate foldl].
  replace (row_add (zero_row tr) (zero_row tr)) with (zero_row tr); [done|].
  unfold row_add, zero_row. by rewrite zip_with_replicate, fadd_zeros.
Qed.

End ScatterLaws.

Lemma Z_sum_scalar : SumScalar Z.
Proof. split; cbn; intros; lia. Qed.

(** ** Further properties of index_add *)

Section IndexAddFurther.
Context {F : Type} `{Scalar F}.

Lemma scatter_length (indices : list Z) (x : ndarray F) (n : nat) (tr : list nat) :
  length (rows (at_add (zeros n tr) indices x)) = n.
Proof.
  unfold at_add. cbn [rows zeros]. by rewrite foldl_add_at_length, length_replicate.
Qed.

(** X5. The length check of line 54 comes first: arrays of different lengths
    raise the assertion error whatever [out_dim] and [map_back] are, and
    nothing else raises it. *)
Theorem index_add_shape_mismatch (indices : list Z) (input : features F)
    (out_dim : option nat) (map_back : bool) :
  index_add indices input out_dim map_back = inl AssertionError ↔
  length indices ≠ length (rows (data input)).
Proof.
  unfold index_add.
  destruct (Nat.eqb_spec (length indices) (length (rows (data input)))) as [Heq|Hne];
    cbn [negb]; [|done].
  split; [|done]. by destruct out_dim, map_back, input.
Qed.

(** X6. With an explicit [out_dim] the call returns for indices of either
    sign: row [b] of the result is as wide as the trailing shape says and
    holds at every position the sum of the entries there of the rows whose
    index is [b] or [b - out_dim] (counting from the end); rows with any
    other index are dropped. *)
Theorem index_add_counts_from_end (indices : list Z) (input : features F)
    (out_dim : nat) :
  length indices = length (rows (data input)) →
  rectangular (data input) →
  let w := dims_product (trailing (data input)) in
  ∃ out, index_add indices input (Some out_dim) false = inr out ∧
    length (rows (data out)) = out_dim ∧
    ∀ b, (b < out_dim)%nat →
      ∃ row, rows (data out) !! b = Some row ∧ length row = w ∧
        ∀ c, (c < w)%nat →
          row !! c
          = Some (sum_of (column c (slot_rows out_dim indices (rows (data input)) b))).
Proof.
  intros Hlen Hrect w. destruct (index_add_sized indices input out_dim Hlen)
    as (out & Hout & Hdata & _).
  exists out. split; [done|]. rewrite Hdata. split.
  - apply scatter_length.
  - intros b Hb.
    apply (row_sum_described (trailing (data input))); [by apply scatter_slot|].
    by apply slot_rows_Forall.
Qed.

(** X7. With associative and commutative addition the result does not depend
    on the order of the rows: permuting the rows together with their indices
    gives the same buckets. *)
Theorem index_add_order_independent `{!SumScalar F} (ps ps' : list (Z * list F))
    (tr : list nat) (out_dim : nat) :
  ps ≡ₚ ps' →
  index_add ps.*1 (Plain (NdArray tr ps.*2)) (Some out_dim) false
  = index_add ps'.*1 (Plain (NdArray tr ps'.*2)) (Some out_dim) false.
Proof.
  intros Hp. unfold index_add. cbn [data rows trailing].
  rewrite !length_fmap, !Nat.eqb_refl. cbn [negb]. do 2 f_equal.
  unfold at_add. cbn [data rows trailing]. f_equal. rewrite !zip_fst_snd.
  apply list_eq. intros b. rewrite !foldl_add_at_lookup.
  destruct (rows (zeros out_dim tr) !! b) as [o|]; [|done].
  cbn [fmap option_fmap option_map]. f_equal.
  apply foldl_row_add_perm. by rewrite Hp.
Qed.

(** X8. With associative and commutative addition and every index addressing
    a bucket, the sum over the buckets is the sum over the input rows. *)
Theorem index_add_conserves_total `{!SumScalar F} (indices : list Z)
    (input : features F) (out_dim : nat) :
  length indices = length (rows (data input)) →
  Forall (λ i, - Z.of_nat out_dim ≤ i < Z.of_nat out_dim) indices →
  ∃ out, index_add indices input (Some out_dim) false = inr out ∧
    row_sum (trailing (data input)) (rows (data out))
    = row_sum (trailing (data input)) (rows (data input)).
Proof.
  intros Hlen Hin. destruct (index_add_sized indices input out_dim Hlen)
    as (out & Hout & Hdata & _).
  exists out. split; [done|]. rewrite Hdata. unfold row_sum, at_add. cbn [rows zeros].
  rewrite total_scatter.
  - by rewrite total_zeros, snd_zip by lia.
  - rewrite length_replicate. apply Forall_forall.
    intros [i r] Hir%elem_of_zip_l. cbn [fst]. apply slot_of_is_Some.
    rewrite Forall_forall in Hin. by apply Hin.
Qed.

(** Row [i] of scatter-then-gather over the relabeled indices. *)
Lemma mapped_row (indices : list Z) (x : ndarray F) (tr : list nat) (i : nat) (k : Z) :
  let y := _distinct_but_small indices in
  indices !! i = Some k →
  gather (zero_row tr) (rows (at_add (zeros (length indices) tr) y x)) y !! i
  = Some (row_sum tr (bucket_rows indices (rows x) k)).
Proof.
  intros y Hi. unfold gather. rewrite list_lookup_fmap.
  replace (y !! i) with (Some (rank indices k)) by (symmetry; by apply relabel_lookup).
  cbn [fmap option_fmap option_map]. f_equal.
  assert (k ∈ indices) as Hk_in by by eapply list_elem_of_lookup_2.
  pose proof (rank_bounds indices k Hk_in) as Hr.
  pose proof (distinct_count_le indices) as Hk.
  unfold getitem. rewrite scatter_length, clip_index_in_range by lia.
  rewrite scatter_bucket; [|apply Forall_forall; intros v Hv%relabel_values; lia|lia].
  cbn [default from_option id]. f_equal. rewrite Z2Nat.id by lia.
  unfold y, _distinct_but_small.
  rewrite <- (relabel_key indices k Hk_in).
  apply (bucket_rows_fmap
           (λ i, hd 0 (where1 (Z.eqb i <$> unique indices (length indices)) 1 0))).
  intros w Hw. cbn beta. rewrite !relabel_key by done. split; [|by intros ->].
  by apply rank_inj.
Qed.

Lemma take_rows_eq (out out' : ndarray F) (idx idx' : list Z) :
  trailing out = trailing out' →
  gather (zero_row (trailing out)) (rows out) idx
  = gather (zero_row (trailing out')) (rows out') idx' →
  take_rows out idx = take_rows out' idx'.
Proof. intros Ht Hg. unfold take_rows. by rewrite Hg, Ht. Qed.

(** X9. The docstring's [return out[indices]]: for indices in [0, out_dim),
    the map-back result is the bucketed result of the same call with
    [out_dim], read back at [indices]. *)
Theorem index_add_map_back_is_gather (indices : list Z) (input : features F)
    (out_dim : nat) :
  length indices = length (rows (data input)) →
  Forall (λ i, 0 ≤ i < Z.of_nat out_dim) indices →
  ∃ mapped bucketed,
    index_add indices input None true = inr mapped ∧
    index_add indices input (Some out_dim) false = inr bucketed ∧
    data mapped = take_rows (data bucketed) indices.
Proof.
  intros Hlen Hin.
  destruct (index_add_mapped indices input Hlen) as (mapped & Hm & Hdm).
  destruct (index_add_sized indices input out_dim Hlen) as (bucketed & Hb & Hdb & _).
  exists mapped, bucketed. split_and!; [done..|].
  rewrite Hdm, Hdb. apply take_rows_eq; [done|].
  change (trailing (at_add (zeros ?n ?t) ?a ?b)) with t.
  apply list_eq. intros i. destruct (indices !! i) as [k|] eqn:Hi.
  - rewrite (mapped_row indices (data input) _ i k Hi).
    unfold gather. rewrite list_lookup_fmap, Hi. cbn [fmap option_fmap option_map].
    f_equal. unfold getitem.
    assert (0 ≤ k < Z.of_nat out_dim) as Hk.
    { rewrite Forall_forall in Hin. apply Hin. by eapply list_elem_of_lookup_2. }
    rewrite scatter_length, clip_index_in_range by lia.
    rewrite scatter_bucket; [|eapply Forall_impl; [exact Hin|]; cbn; lia|lia].
    cbn [default from_option id]. by rewrite Z2Nat.id by lia.
  - transitivity (@None (list F)); [|symmetry]; apply lookup_ge_None.
    + unfold gather. rewrite length_fmap, relabel_length. by apply lookup_ge_None.
    + unfold gather. rewrite length_fmap. by apply lookup_ge_None.
Qed.

(** X10. In map-back mode only the equalities among the indices matter:
    renaming the indices through a function that is injective on them gives
    the same result. *)
Theorem index_add_map_back_labels_only (f : Z → Z) (indices : list Z)
    (input : features F) :
  (∀ a b, a ∈ indices → b ∈ indices → f a = f b → a = b) →
  index_add (f <$> indices) input None true = index_add indices input None true.
Proof.
  intros Hf. unfold index_add. rewrite length_fmap.
  destruct (negb _); [done|].
  assert (take_rows (at_add (zeros (length indices) (trailing (data input)))
                       (_distinct_but_small (f <$> indices)) (data input))
                    (_distinct_but_small (f <$> indices))
          = take_rows (at_add (zeros (length indices) (trailing (data input)))
                         (_distinct_but_small indices) (data input))
                      (_distinct_but_small indices)) as Heq.
  { apply take_rows_eq; [done|].
    change (trailing (at_add (zeros ?n ?t) ?a ?b)) with t.
    apply list_eq. intros i. destruct (indices !! i) as [k|] eqn:Hi.
    - rewrite (mapped_row indices (data input) _ i k Hi).
      pose proof (mapped_row (f <$> indices) (data input) (trailing (data input)) i (f k))
        as Hfk.
      cbn zeta in Hfk. rewrite length_fmap in Hfk.
      rewrite Hfk by (by rewrite list_lookup_fmap, Hi). do 2 f_equal.
      apply bucket_rows_fmap. intros w Hw. split; [|by intros ->].
      apply Hf; [done|]. by eapply list_elem_of_lookup_2.
    - transitivity (@None (list F)); [|symmetry]; apply lookup_ge_None;
        unfold gather; rewrite length_fmap, relabel_length, ?length_fmap;
        by apply lookup_ge_None. }
  cbn zeta. destruct input; cbn [data] in *; by rewrite Heq.
Qed.

End IndexAddFurther.

(** The further index_add properties on concrete arrays of integers. *)

Lemma index_add_shape_mismatch_witness :
  index_add [0; 1; 1] (Plain (NdArray [] [[1]; [2]])) None false = inl AssertionError.
Proof.
  apply (index_add_shape_mismatch [0; 1; 1] (Plain (NdArray [] [[1]; [2]])) None false).
  cbn. lia.
Defined.

Lemma index_add_counts_from_end_witness :
  ∃ out, index_add [-1; 0; -3; 5; -7]
           (Plain (NdArray [2%nat] [[1; 10]; [2; 20]; [4; 40]; [8; 80]; [16; 160]]))
           (Some 3%nat) false = inr out ∧
    (∃ row, rows (data out) !! 0%nat = Some row ∧ length row = 2%nat ∧
       row !! 0%nat = Some 6 ∧ row !! 1%nat = Some 60) ∧
    (∃ row, rows (data out) !! 2%nat = Some row ∧
       row !! 0%nat = Some 1 ∧ row !! 1%nat = Some 10).
Proof.
  destruct (index_add_counts_from_end [-1; 0; -3; 5; -7]
              (Plain (NdArray [2%nat] [[1; 10]; [2; 20]; [4; 40]; [8; 80]; [16; 160]])) 3)
    as (out & Hout & _ & Hb).
  - reflexivity.
  - repeat constructor.
  - exists out. split_and!; [done|..].
    + destruct (Hb 0%nat ltac:(lia)) as (row & Hrow & Hw & Hentry).
      exists row. split_and!; [done|done|..].
      * rewrite (Hentry 0%nat) by (cbn; lia). reflexivity.
      * rewrite (Hentry 1%nat) by (cbn; lia). reflexivity.
    + destruct (Hb 2%nat ltac:(lia)) as (row & Hrow & _ & Hentry).
      exists row. split_and!; [done|..].
      * rewrite (Hentry 0%nat) by (cbn; lia). reflexivity.
      * rewrite (Hentry 1%nat) by (cbn; lia). reflexivity.
Defined.

Lemma index_add_order_independent_witness :
  index_add [2; 0; 2] (Plain (NdArray [] [[1]; [2]; [3]])) (Some 3%nat) false
  = index_add [0; 2; 2] (Plain (NdArray [] [[2]; [3]; [1]])) (Some 3%nat) false.
Proof.
  apply (index_add_order_independent (SumScalar0 := Z_sum_scalar)
           [(2, [1]); (0, [2]); (2, [3])] [(0, [2]); (2, [3]); (2, [1])] [] 3).
  etransitivity; [apply perm_swap|]. apply perm_skip, perm_swap.
Defined.

Lemma index_add_conserves_total_witness :
  ∃ out, index_add [-1; 0; -3; 2] (Plain (NdArray [2%nat] [[1; 1]; [2; 0]; [4; 5]; [8; 3]]))
           (Some 3%nat) false = inr out ∧
    row_sum [2%nat] (rows (data out)) = [15; 9].
Proof.
  destruct (index_add_conserves_total (SumScalar0 := Z_sum_scalar) [-1; 0; -3; 2]
              (Plain (NdArray [2%nat] [[1; 1]; [2; 0]; [4; 5]; [8; 3]])) 3)
    as (out & Hout & Htotal).
  - reflexivity.
  - repeat constructor; lia.
  - exists out. split; [done|]. exact Htotal.
Defined.

Lemma index_add_map_back_is_gather_witness :
  ∃ mapped bucketed,
    index_add [3; 1; 3] (Plain (NdArray [] [[1]; [2]; [4]])) None true = inr mapped ∧
    index_add [3; 1; 3] (Plain (NdArray [] [[1]; [2]; [4]])) (Some 5%nat) false
    = inr bucketed ∧
    data mapped = take_rows (data bucketed) [3; 1; 3].
Proof.
  apply (index_add_map_back_is_gather [3; 1; 3] (Plain (NdArray [] [[1]; [2]; [4]])) 5).
  - reflexivity.
  - repeat constructor; lia.
Defined.

Lemma index_add_map_back_labels_only_witness :
  index_add ((λ a, - a) <$> [3; 1; 3]) (Plain (NdArray [] [[1]; [2]; [4]])) None true
  = index_add [3; 1; 3] (Plain (NdArray [] [[1]; [2]; [4]])) None true.
Proof.
  apply (index_add_map_back_labels_only (λ a, - a)). intros a b _ _ Hab. lia.
Defined.

(** ** Further facts about the extraction and the boolean mask *)

Lemma Z_symmetric_scalar : SymmetricScalar Z.
Proof. split. intros a b. cbn. nia. Qed.

Lemma compress_Forall {A} (P : A → Prop) (a : list A) (m : list bool) :
  Forall P a → Forall P (compress a m).
Proof.
  intros Ha. revert m. induction Ha as [|x a Hx _ IH]; intros [|b m]; cbn; try done.
  destruct b; [constructor|]; auto.
Qed.

Lemma compress_keep_all {A} (a : list A) :
  compress a (replicate (length a) true) = a.
Proof. induction a as [|x a IH]; [done|]. cbn. by rewrite IH. Qed.

(** A pair survives a boolean mask exactly when it sits under a [true]. *)
Lemma compress_edges (a a' : list Z) (m : list bool) (s d : Z) :
  length a = length a' →
  edge_of (compress a m, compress a' m) s d ↔
  ∃ n, a !! n = Some s ∧ a' !! n = Some d ∧ m !! n = Some true.
Proof.
  intros Hlen. split.
  - intros (k & Hs & Hd). by eapply compress_lookup2.
  - intros (n & Hs & Hd & Hm). unfold edge_of. cbn [fst snd].
    revert a' m n Hlen Hs Hd Hm. induction a as [|u a IH];
      intros [|v a'] [|b m] n Hlen Hs Hd Hm; try done.
    destruct n as [|n]; cbn in Hs, Hd, Hm.
    + simplify_eq. by exists 0%nat.
    + destruct (IH a' m n) as (k & Hk1 & Hk2); [cbn in Hlen; lia|done..|].
      cbn [compress]. destruct b; [by exists (S k)|by exists k].
Qed.

Lemma nonzero_from_length (c : list bool) (k : Z) :
  (length (nonzero_from k c) ≤ length c)%nat.
Proof.
  revert k. induction c as [|b c IH]; intros k; [done|].
  cbn [nonzero_from]. specialize (IH (k + 1)). destruct b; cbn; lia.
Qed.

Lemma nonzero_from_sorted (c : list bool) (k : Z) :
  StronglySorted Z.lt (nonzero_from k c) ∧ Forall (Z.le k) (nonzero_from k c).
Proof.
  revert k. induction c as [|b c IH]; intros k; [by split; constructor|].
  cbn [nonzero_from]. destruct (IH (k + 1)) as [Hs Hk].
  assert (Forall (Z.lt k) (nonzero_from (k + 1) c)) as Hlt
    by (eapply Forall_impl; [exact Hk|]; cbn; lia).
  destruct b.
  - split; constructor; try done; try lia.
    eapply Forall_impl; [exact Hlt|]; cbn; lia.
  - split; [done|]. eapply Forall_impl; [exact Hlt|]; cbn; lia.
Qed.

(** The positions of a boolean matrix, rows counted from [o]. *)
Lemma nonzero_rows_sorted (mask : list (list bool)) (o : nat) :
  let ps := mjoin (imap (λ i row, pair (Z.of_nat (o + i)) <$> nonzero_from 0 row) mask) in
  StronglySorted pair_lt ps ∧ Forall (λ p, Z.of_nat o ≤ p.1) ps.
Proof.
  revert o. induction mask as [|row mask IH]; intros o; [by split; constructor|].
  cbn zeta. rewrite imap_cons. cbn [mjoin list_join].
  rewrite (imap_ext _ (λ i row, pair (Z.of_nat (S o + i)) <$> nonzero_from 0 row))
    by (intros i r _; cbn; do 2 f_equal; lia).
  destruct (IH (S o)) as [Hs Ho]. cbn zeta in Hs, Ho.
  destruct (nonzero_from_sorted row 0) as [Hrow _].
  split.
  - apply StronglySorted_app_2; [| |exact Hs].
    + intros p q [j [-> _]]%list_elem_of_fmap Hq.
      rewrite Forall_forall in Ho. specialize (Ho q Hq). left. cbn. lia.
    + rewrite Nat.add_0_r. clear -Hrow.
      induction Hrow as [|j l _ IHl Hj]; cbn; constructor; [done|].
      rewrite Forall_fmap. eapply Forall_impl; [exact Hj|].
      intros j' Hlt. right. cbn. lia.
  - apply Forall_app. split.
    + rewrite Forall_fmap. apply Forall_forall. intros j _. cbn. lia.
    + eapply Forall_impl; [exact Ho|]. cbn. lia.
Qed.

Lemma nonzero2_sorted (mask : list (list bool)) : StronglySorted pair_lt (nonzero2 mask).
Proof. apply (nonzero_rows_sorted mask 0). Qed.

Lemma mjoin_nonzero_length {B} (g : nat → Z → B) (mask : list (list bool)) (m : nat) :
  Forall (λ row, length row = m) mask →
  (length (mjoin (imap (λ i row, g i <$> nonzero_from 0 row) mask)) ≤ length mask * m)%nat.
Proof.
  intros Hall. revert g. induction Hall as [|row mask Hrow _ IH]; intros g; [done|].
  rewrite imap_cons.
  change (mjoin (?a :: ?l)) with (a ++ mjoin l).
  rewrite length_app, length_fmap.
  pose proof (nonzero_from_length row 0). specialize (IH (g ∘ S)).
  change (imap ((λ i row0, g i <$> nonzero_from 0 row0) ∘ S) mask)
    with (imap (λ i row0, (g ∘ S) i <$> nonzero_from 0 row0) mask).
  cbn [length]. lia.
Qed.

Lemma nonzero2_length (mask : list (list bool)) (m : nat) :
  Forall (λ row, length row = m) mask →
  (length (nonzero2 mask) ≤ length mask * m)%nat.
Proof. apply mjoin_nonzero_length. Qed.

Lemma clip_index_lt (n : nat) (i : Z) : (0 < n)%nat → (clip_index n i < n)%nat.
Proof. intros Hn. unfold clip_index. lia. Qed.

(** ** Further properties of radius_graph *)

Section RadiusGraphFurther.
Context {F : Type} `{Scalar F}.

Lemma adjacency_shape (pos : list (list F)) (r_max : F) (loop : bool) :
  let mask := adjacency (pairwise_norm pos) r_max loop in
  length mask = length pos ∧ Forall (λ row, length row = length pos) mask.
Proof.
  cbn zeta. rewrite adjacency_rows. split; [by rewrite length_fmap|].
  rewrite Forall_fmap. apply Forall_forall. intros p _. cbn. by rewrite length_fmap.
Qed.

Lemma exact_in_range (pos : list (list F)) (r_max : F) (loop : bool) :
  let exact := radius_graph pos r_max None None loop in
  Forall (λ s, 0 ≤ s < Z.of_nat (length pos)) exact.1 ∧
  Forall (λ d, 0 ≤ d < Z.of_nat (length pos)) exact.2.
Proof.
  intros exact.
  pose proof (radius_graph_exact_lengths pos r_max loop) as Hlen. cbn zeta in Hlen.
  fold exact in Hlen.
  assert (∀ s d, edge_of exact s d →
            0 ≤ s < Z.of_nat (length pos) ∧ 0 ≤ d < Z.of_nat (length pos)) as Hin.
  { intros s d (i & j & -> & -> & Hij)%exact_edges.
    apply adjacency_is_set in Hij as (p & q & Hp%lookup_lt_Some & Hq%lookup_lt_Some & _).
    lia. }
  split; apply Forall_lookup; intros k v Hv.
  - destruct (lookup_lt_is_Some_2 exact.2 k) as [d Hd].
    { rewrite <- Hlen. by eapply lookup_lt_Some. }
    apply (Hin v d). by exists k.
  - destruct (lookup_lt_is_Some_2 exact.1 k) as [s Hs].
    { rewrite Hlen. by eapply lookup_lt_Some. }
    apply (Hin s v). by exists k.
Qed.

(** X11. For a non-empty [pos] every returned index is a row of [pos] or
    the sentinel [-1]; without [size] no sentinel occurs, for any [pos], so
    both arrays can index [pos] as they are. *)
Theorem radius_graph_indices_in_range (pos : list (list F)) (r_max : F)
    (batch : option (list Z)) (size : option nat) (loop : bool) :
  let e := radius_graph pos r_max batch size loop in
  (pos ≠ [] →
   Forall (λ s, -1 ≤ s < Z.of_nat (length pos)) e.1 ∧
   Forall (λ d, -1 ≤ d < Z.of_nat (length pos)) e.2) ∧
  (size = None →
   Forall (λ s, 0 ≤ s < Z.of_nat (length pos)) e.1 ∧
   Forall (λ d, 0 ≤ d < Z.of_nat (length pos)) e.2).
Proof.
  destruct (exact_in_range pos r_max loop) as [Hs Hd]. cbn zeta in Hs, Hd.
  assert (∀ (P : Z → Prop) size',
            (size' = None ∨ (pos ≠ [] ∧ P (-1))) →
            (∀ v, 0 ≤ v < Z.of_nat (length pos) → P v) →
            Forall P (radius_graph pos r_max batch size' loop).1 ∧
            Forall P (radius_graph pos r_max batch size' loop).2) as Hall.
  { intros P size' Hfill HP.
    assert (Forall P (radius_graph pos r_max None size' loop).1 ∧
            Forall P (radius_graph pos r_max None size' loop).2) as [H1 H2].
    { destruct size' as [n|].
      - destruct Hfill as [|[Hne Hfill]]; [done|]. rewrite radius_graph_sized.
        rewrite decide_False by done. cbn [fst snd].
        split; apply Forall_resize; try done; (eapply Forall_impl; [|exact HP]); done.
      - split; (eapply Forall_impl; [|exact HP]); done. }
    destruct batch as [batch|]; [|done].
    rewrite radius_graph_batched. cbn [fst snd]. split; by apply compress_Forall. }
  intros e. split.
  - intros Hne. apply (Hall (λ s, -1 ≤ s < Z.of_nat (length pos))).
    + right. split; [done|]. destruct pos; [done|]. cbn [length]. lia.
    + lia.
  - intros ->. apply (Hall (λ s, 0 ≤ s < Z.of_nat (length pos))); [by left|done].
Qed.

(** X12. There are at most [N * N] pairs, so for a non-empty [pos] a [size]
    of [N * N] or more drops none: the result is then every pair found,
    followed by padding. *)
Theorem radius_graph_capacity (pos : list (list F)) (r_max : F) (n : nat) (loop : bool) :
  let exact := radius_graph pos r_max None None loop in
  (length exact.1 ≤ length pos * length pos)%nat ∧
  (pos ≠ [] → (length pos * length pos ≤ n)%nat →
   radius_graph pos r_max None (Some n) loop
   = (exact.1 ++ replicate (n - length exact.1) (-1),
      exact.2 ++ replicate (n - length exact.1) (-1))).
Proof.
  intros exact.
  assert (length exact.1 ≤ length pos * length pos)%nat as Hcount.
  { unfold exact. rewrite radius_graph_exact. cbn [fst]. rewrite length_fmap.
    destruct (adjacency_shape pos r_max loop) as [Hrows Hcols]. cbn zeta in Hrows, Hcols.
    rewrite <- Hrows at 1. by apply nonzero2_length. }
  split; [done|]. intros Hne Hn.
  pose proof (radius_graph_exact_lengths pos r_max loop) as Hlen. cbn zeta in Hlen.
  fold exact in Hlen.
  rewrite radius_graph_sized, decide_False by done.
  fold exact. rewrite !resize_ge by lia. by rewrite Hlen.
Qed.

(** X13. A smaller [size] gives a prefix of what a larger [size] gives. *)
Theorem radius_graph_size_prefix (pos : list (list F)) (r_max : F) (m n : nat)
    (loop : bool) :
  (m ≤ n)%nat →
  let larger := radius_graph pos r_max None (Some n) loop in
  radius_graph pos r_max None (Some m) loop = (take m larger.1, take m larger.2).
Proof.
  intros Hmn larger. unfold larger. rewrite !radius_graph_sized.
  destruct (decide (pos = [])); cbn [fst snd].
  - by rewrite !take_replicate, Nat.min_l.
  - by rewrite !take_resize_le.
Qed.

(** X14. Without [size] and [batch] the pairs come in row-major order, each
    once: sorted by source, and by destination within one source. *)
Theorem radius_graph_row_major (pos : list (list F)) (r_max : F) (loop : bool) :
  let exact := radius_graph pos r_max None None loop in
  StronglySorted pair_lt (zip exact.1 exact.2).
Proof.
  cbn zeta. rewrite radius_graph_exact. cbn [fst snd]. rewrite zip_fst_snd.
  apply nonzero2_sorted.
Qed.

Lemma batch_edges (pos : list (list F)) (r_max : F)
    (batch : list Z) (size : option nat) (loop : bool) (s d : Z) :
  edge_of (radius_graph pos r_max (Some batch) size loop) s d ↔
  edge_of (radius_graph pos r_max None size loop) s d ∧
  getitem 0 batch s = getitem 0 batch d.
Proof.
  rewrite radius_graph_batched. cbn zeta.
  rewrite compress_edges by apply radius_graph_lengths.
  unfold edge_of, gather. split.
  - intros (k & Hs & Hd & Hkeep).
    rewrite lookup_zip_with, !list_lookup_fmap, Hs, Hd in Hkeep. cbn in Hkeep.
    injection Hkeep as Hkeep%Z.eqb_eq. split; [by exists k|done].
  - intros [(k & Hs & Hd) Heq]. exists k. split_and!; [done..|].
    rewrite lookup_zip_with, !list_lookup_fmap, Hs, Hd. cbn. f_equal.
    by apply Z.eqb_eq.
Qed.

(** X15. The batch filter keeps every pair of one batch: a pair is returned
    with [batch] exactly when it is returned without and [batch] agrees at
    its two ends. *)
Theorem radius_graph_batch_exact (pos : list (list F)) (r_max : F)
    (batch : list Z) (size : option nat) (loop : bool) (s d : Z) :
  edge_of (radius_graph pos r_max (Some batch) size loop) s d ↔
  edge_of (radius_graph pos r_max None size loop) s d ∧
  getitem 0 batch s = getitem 0 batch d.
Proof. apply batch_edges. Qed.

(** X16. A batch array with one batch id filters nothing. *)
Theorem radius_graph_single_batch (pos : list (list F)) (r_max : F)
    (batch : list Z) (c : Z) (size : option nat) (loop : bool) :
  batch ≠ [] → Forall (eq c) batch →
  radius_graph pos r_max (Some batch) size loop = radius_graph pos r_max None size loop.
Proof.
  intros Hne Hc. rewrite radius_graph_batched. cbn zeta.
  assert (∀ i, getitem 0 batch i = c) as Hget.
  { intros i. unfold getitem.
    destruct (lookup_lt_is_Some_2 batch (clip_index (length batch) i)) as [x Hx].
    - apply clip_index_lt. destruct batch; [done|cbn; lia].
    - rewrite Hx. cbn. symmetry. by eapply Forall_lookup_1. }
  pose proof (radius_graph_lengths pos r_max size loop) as Hlen. cbn zeta in Hlen.
  destruct (radius_graph pos r_max None size loop) as [src dst]. cbn [fst snd] in *.
  assert (zip_with Z.eqb (gather 0 batch src) (gather 0 batch dst)
          = replicate (length src) true) as ->.
  { unfold gather. revert dst Hlen. induction src as [|s src IH]; intros [|d dst] Hlen;
      try done.
    cbn. rewrite !Hget, Z.eqb_refl. f_equal. apply IH. cbn in Hlen. lia. }
  rewrite compress_keep_all. by rewrite Hlen, compress_keep_all.
Qed.

(** X17. [loop=False] returns the pairs of [loop=True] at a distance above
    zero: self-loops add pairs and remove none. *)
Theorem radius_graph_loop_adds_zero_distance (pos : list (list F)) (r_max : F)
    (i j : nat) :
  edge_of (radius_graph pos r_max None None false) (Z.of_nat i) (Z.of_nat j) ↔
  edge_of (radius_graph pos r_max None None true) (Z.of_nat i) (Z.of_nat j) ∧
  ∃ p q, pos !! i = Some p ∧ pos !! j = Some q ∧ fltb fzero (norm (vsub p q)) = true.
Proof.
  assert (∀ loop, edge_of (radius_graph pos r_max None None loop) (Z.of_nat i) (Z.of_nat j)
            ↔ ∃ p q, pos !! i = Some p ∧ pos !! j = Some q ∧ within r_max loop p q) as Hedge.
  { intros loop. rewrite exact_edges. rewrite <- adjacency_is_set. split.
    - by intros (i' & j' & ->%Nat2Z.inj & ->%Nat2Z.inj & Hij).
    - intros Hij. by exists i, j. }
  rewrite !Hedge. unfold within. split.
  - intros (p & q & Hp & Hq & Hlt & Hgt). split; exists p, q; split_and!; try done.
    by apply Hgt.
  - intros [(p & q & Hp & Hq & Hlt & _) (p' & q' & Hp' & Hq' & Hgt)].
    rewrite Hp in Hp'. rewrite Hq in Hq'. injection Hp' as <-. injection Hq' as <-.
    by exists p, q.
Qed.

Lemma norm_sym `{!SymmetricScalar F} (p q : list F) : norm (vsub p q) = norm (vsub q p).
Proof.
  unfold norm, vsub. do 2 f_equal. revert q.
  induction p as [|a p IH]; intros [|b q]; try done.
  cbn. by rewrite fsub_square_sym, IH.
Qed.

(** X18. When the square of a difference is symmetric, so is the result
    without [size]: each pair is returned together with its reverse, with
    and without a batch array. *)
Theorem radius_graph_symmetric `{!SymmetricScalar F} (pos : list (list F)) (r_max : F)
    (batch : option (list Z)) (loop : bool) (s d : Z) :
  edge_of (radius_graph pos r_max batch None loop) s d →
  edge_of (radius_graph pos r_max batch None loop) d s.
Proof.
  assert (∀ s d, edge_of (radius_graph pos r_max None None loop) s d →
                 edge_of (radius_graph pos r_max None None loop) d s) as Hsym.
  { intros s' d' (i & j & -> & -> & Hij)%exact_edges. apply exact_edges.
    exists j, i. split_and!; try done.
    apply adjacency_is_set in Hij as (p & q & Hp & Hq & Hlt & Hgt).
    apply adjacency_is_set. exists q, p. unfold within.
    rewrite (norm_sym q p). by split_and!. }
  destruct batch as [batch|]; [|apply Hsym].
  intros [Hsd Heq]%batch_edges. apply batch_edges.
  split; [by apply Hsym|done].
Qed.

End RadiusGraphFurther.

(** The further radius_graph properties on the three collinear points. *)

Lemma radius_graph_indices_in_range_witness :
  let pos := [[0; 0; 0]; [1; 0; 0]; [2; 0; 0]] in
  Forall (λ s, 0 ≤ s < 3) (radius_graph pos 2 (Some [0; 0; 1]) None false).1 ∧
  Forall (λ s, -1 ≤ s < 3) (radius_graph pos 2 None (Some 6%nat) false).1.
Proof.
  intros pos. split.
  - destruct (radius_graph_indices_in_range pos 2 (Some [0; 0; 1]) None false)
      as [_ Hreal]. destruct (Hreal eq_refl) as [Hs _]. exact Hs.
  - destruct (radius_graph_indices_in_range pos 2 None (Some 6%nat) false)
      as [Hsized _]. destruct Hsized as [Hs _]; [done|]. exact Hs.
Defined.

Lemma radius_graph_capacity_witness :
  radius_graph [[0; 0; 0]; [1; 0; 0]; [2; 0; 0]] 2 None (Some 9%nat) true
  = ([0; 0; 1; 1; 1; 2; 2; -1; -1], [0; 1; 0; 1; 2; 1; 2; -1; -1]).
Proof.
  destruct (radius_graph_capacity [[0; 0; 0]; [1; 0; 0]; [2; 0; 0]] 2 9 true) as [_ Hfull].
  apply Hfull; [done|]. cbn. lia.
Defined.

Lemma radius_graph_size_prefix_witness :
  radius_graph [[0; 0; 0]; [1; 0; 0]; [2; 0; 0]] 2 None (Some 3%nat) false
  = (take 3 [0; 1; 1; 2; -1], take 3 [1; 0; 2; 1; -1]).
Proof.
  assert (3 ≤ 5)%nat as Hle by lia.
  exact (radius_graph_size_prefix [[0; 0; 0]; [1; 0; 0]; [2; 0; 0]] 2 3 5 false Hle).
Defined.

Lemma radius_graph_single_batch_witness :
  radius_graph [[0; 0; 0]; [1; 0; 0]; [2; 0; 0]] 2 (Some [4; 4; 4]) (Some 6%nat) false
  = radius_graph [[0; 0; 0]; [1; 0; 0]; [2; 0; 0]] 2 None (Some 6%nat) false.
Proof.
  apply (radius_graph_single_batch _ 2 [4; 4; 4] 4); [done|].
  repeat constructor.
Defined.

Lemma radius_graph_symmetric_witness :
  edge_of (radius_graph [[0; 0; 0]; [1; 0; 0]; [2; 0; 0]] 2 (Some [0; 0; 1]) None false) 1 0.
Proof.
  apply (radius_graph_symmetric (SymmetricScalar0 := Z_symmetric_scalar)).
  exists 0%nat. split; reflexivity.
Defined.
